(** * Numerical integration rules: a shallow embedding of
    [integration_techniques.c] and the verification of its specification.

    Modelling choices.

    - A [double] is a primitive float of Rocq: IEEE-754 binary64, round to
      nearest even, with a single NaN.  Expressions are evaluated in the
      order in which the source writes them, without excess precision and
      without fused multiply-add contraction.
    - A [long long] is an integer of [LLONG_MIN .. LLONG_MAX]; updates of a
      loop counter are reduced to that range by two's-complement wrap-around
      (ISO C leaves signed overflow undefined).
    - A request reaches a rule through a pointer, which may be null, and
      holds a function pointer, which may be null too: both are options.
    - The integrand is a pure function from doubles to doubles, as the
      specification requires of it.
    - A rule runs in a world that records what it does to its environment:
      the arguments at which it called the integrand, and how many numbers
      it took from the generator behind [rand()].
    - Loops are run with a step budget (fuel); a call that is still looping
      when the budget runs out has no result.

    The benchmark driver of [main.c] comes after the rules: its tables, its
    three nested loops over the result array and its CSV export, with the
    C library ([rand], [clock], [malloc], [fopen], [printf], [sin], [exp])
    as parameters and inputs. *)

From Stdlib Require Import String ZArith List Lia Bool.
From Stdlib Require Import Floats Uint63.
Import ListNotations.

Local Open Scope Z_scope.

(** ** Machine integers *)

Definition LLONG_MAX : Z := 9223372036854775807.
Definition LLONG_MIN : Z := -9223372036854775808.

(** Two's-complement reduction of an integer to the 64-bit signed range. *)
Definition ll_wrap (z : Z) : Z := (z - LLONG_MIN) mod 2 ^ 64 + LLONG_MIN.

Definition ll_range (z : Z) : Prop := LLONG_MIN <= z <= LLONG_MAX.

(** Conversion of a [long long] (or an [int]) to [double]: round to nearest
    even, as [of_uint63] does on the non-negative 63-bit range. *)
Definition ll_to_double (z : Z) : float :=
  if 0 <=? z then of_uint63 (Uint63.of_Z z)
  else if z =? LLONG_MIN then (- 0x1p63)%float
  else (- of_uint63 (Uint63.of_Z (- z)))%float.

(** ** The request *)

(** [typedef double ( *MathFunction)(double)]. *)
Definition MathFunction : Type := float -> float.

(** [IntegrationParams]; a function pointer may be [NULL]. *)
Record IntegrationParams : Type := mkParams {
  func : option MathFunction;
  lower_bound : float;
  upper_bound : float;
  num_intervals : Z
}.

(** ** The outside world, and computations in it *)

(** [rand_src] is the stream of values the generator will deliver,
    [rand_next] the position of the next one; [evals] lists, oldest first, the
    arguments at which an integrand has been called. *)
Record World : Type := mkWorld {
  rand_src : nat -> Z;
  rand_next : nat;
  evals : list float
}.

Inductive outcome (A : Type) : Type :=
| Done (a : A) (w : World)   (* returned [a], leaving the world as [w] *)
| Undefined                  (* dereferenced or called a null pointer *)
| OutOfFuel.                 (* still looping when the step budget ran out *)
Arguments Done {A} a w.
Arguments Undefined {A}.
Arguments OutOfFuel {A}.

Definition M (A : Type) : Type := World -> outcome A.

Definition ret {A} (a : A) : M A := fun w => Done a w.

Definition bind {A B} (m : M A) (k : A -> M B) : M B :=
  fun w => match m w with
           | Done a w' => k a w'
           | Undefined => Undefined
           | OutOfFuel => OutOfFuel
           end.

Notation "x <- m ;; k" := (bind m (fun x => k))
  (at level 61, m at next level, right associativity).

Definition undefined {A} : M A := fun _ => Undefined.
Definition out_of_fuel {A} : M A := fun _ => OutOfFuel.

(** The world after integrand calls at [xs], in that order. *)
Definition log_evals (xs : list float) (w : World) : World :=
  {| rand_src := rand_src w; rand_next := rand_next w; evals := evals w ++ xs |}.

(** The world after [k] further calls of [rand()]. *)
Definition skip_rand (k : nat) (w : World) : World :=
  {| rand_src := rand_src w; rand_next := (rand_next w + k)%nat; evals := evals w |}.

(** [f(x)] through a function pointer. *)
Definition call (f : option MathFunction) (x : float) : M float :=
  match f with
  | Some g => fun w => Done (g x) (log_evals [x] w)
  | None => undefined
  end.

(** [rand()]. *)
Definition rand : M Z :=
  fun w => Done (rand_src w (rand_next w)) (skip_rand 1 w).

(** [*params]. *)
Definition deref (params : option IntegrationParams) : M IntegrationParams :=
  match params with
  | Some p => ret p
  | None => undefined
  end.

(** [for (long long i = i0; cond(i); i = step(i)) sum = body(i, sum);]
    One unit of fuel pays for one test of the condition. *)
Fixpoint for_loop (fuel : nat) (cond : Z -> bool) (step : Z -> Z)
    (body : Z -> float -> M float) (i : Z) (sum : float) : M float :=
  match fuel with
  | O => out_of_fuel
  | S fuel' =>
      if cond i then
        sum' <- body i sum ;;
        for_loop fuel' cond step body (step i) sum'
      else ret sum
  end.

(** ** The rules *)

Local Open Scope float_scope.

Definition is_invalid (params : option IntegrationParams) : bool :=
  match params with
  | None => true
  | Some p =>
      match func p with
      | None => true
      | Some _ =>
          (num_intervals p <=? 0)%Z || (upper_bound p <=? lower_bound p)
      end
  end.

Definition rectangle_left_endpoint (fuel : nat)
    (params : option IntegrationParams) : M float :=
  if is_invalid params then ret nan else
  p <- deref params ;;
  let a := lower_bound p in
  let b := upper_bound p in
  let n := num_intervals p in
  let f := func p in
  let dx := (b - a) / ll_to_double n in
  sum <- for_loop fuel (fun i => (i <? n)%Z) (fun i => ll_wrap (i + 1))
           (fun i sum => y <- call f (a + ll_to_double i * dx) ;; ret (sum + y))
           0%Z 0 ;;
  ret (sum * dx).

Definition rectangle_right_endpoint (fuel : nat)
    (params : option IntegrationParams) : M float :=
  if is_invalid params then ret nan else
  p <- deref params ;;
  let a := lower_bound p in
  let b := upper_bound p in
  let n := num_intervals p in
  let f := func p in
  let dx := (b - a) / ll_to_double n in
  sum <- for_loop fuel (fun i => (i <=? n)%Z) (fun i => ll_wrap (i + 1))
           (fun i sum => y <- call f (a + ll_to_double i * dx) ;; ret (sum + y))
           1%Z 0 ;;
  ret (sum * dx).

Definition rectangle_midpoint (fuel : nat)
    (params : option IntegrationParams) : M float :=
  if is_invalid params then ret nan else
  p <- deref params ;;
  let a := lower_bound p in
  let b := upper_bound p in
  let n := num_intervals p in
  let f := func p in
  let dx := (b - a) / ll_to_double n in
  sum <- for_loop fuel (fun i => (i <? n)%Z) (fun i => ll_wrap (i + 1))
           (fun i sum =>
              y <- call f (a + (ll_to_double i + 0.5) * dx) ;; ret (sum + y))
           0%Z 0 ;;
  ret (sum * dx).

(** The two endpoint calls of [f(a) + f(b)] are logged left to right. *)
Definition trapezoidal_rule (fuel : nat)
    (params : option IntegrationParams) : M float :=
  if is_invalid params then ret nan else
  p <- deref params ;;
  let a := lower_bound p in
  let b := upper_bound p in
  let n := num_intervals p in
  let f := func p in
  let dx := (b - a) / ll_to_double n in
  fa <- call f a ;;
  fb <- call f b ;;
  sum <- for_loop fuel (fun i => (i <? n)%Z) (fun i => ll_wrap (i + 1))
           (fun i sum => y <- call f (a + ll_to_double i * dx) ;; ret (sum + y))
           1%Z (0.5 * (fa + fb)) ;;
  ret (sum * dx).

Definition simpsons_1_3_rule (fuel : nat)
    (params : option IntegrationParams) : M float :=
  if is_invalid params then ret nan else
  p <- deref params ;;
  if negb (Z.rem (num_intervals p) 2 =? 0)%Z then ret nan else
  let a := lower_bound p in
  let b := upper_bound p in
  let n := num_intervals p in
  let f := func p in
  let dx := (b - a) / ll_to_double n in
  fa <- call f a ;;
  fb <- call f b ;;
  sum <- for_loop fuel (fun i => (i <? n)%Z) (fun i => ll_wrap (i + 2))
           (fun i sum =>
              y <- call f (a + ll_to_double i * dx) ;; ret (sum + 4 * y))
           1%Z (fa + fb) ;;
  sum <- for_loop fuel (fun i => (i <? ll_wrap (n - 1))%Z)
           (fun i => ll_wrap (i + 2))
           (fun i sum =>
              y <- call f (a + ll_to_double i * dx) ;; ret (sum + 2 * y))
           2%Z sum ;;
  ret (sum * dx / 3).

Definition simpsons_3_8_rule (fuel : nat)
    (params : option IntegrationParams) : M float :=
  if is_invalid params then ret nan else
  p <- deref params ;;
  if negb (Z.rem (num_intervals p) 3 =? 0)%Z then ret nan else
  let a := lower_bound p in
  let b := upper_bound p in
  let n := num_intervals p in
  let f := func p in
  let dx := (b - a) / ll_to_double n in
  fa <- call f a ;;
  fb <- call f b ;;
  sum <- for_loop fuel (fun i => (i <? n)%Z) (fun i => ll_wrap (i + 1))
           (fun i sum =>
              if (Z.rem i 3 =? 0)%Z then
                y <- call f (a + ll_to_double i * dx) ;; ret (sum + 2 * y)
              else
                y <- call f (a + ll_to_double i * dx) ;; ret (sum + 3 * y))
           1%Z (fa + fb) ;;
  ret (sum * dx * 3 / 8).

(** [RAND_MAX] comes from the C library, not from this repository: it is the
    largest value [rand()] can return, and the rule takes it as a parameter. *)
Definition monte_carlo_integration (RAND_MAX : Z) (fuel : nat)
    (params : option IntegrationParams) : M float :=
  if is_invalid params then ret nan else
  p <- deref params ;;
  let a := lower_bound p in
  let b := upper_bound p in
  let n := num_intervals p in
  let f := func p in
  let range := b - a in
  sum <- for_loop fuel (fun i => (i <? n)%Z) (fun i => ll_wrap (i + 1))
           (fun _ sum =>
              r <- rand ;;
              let random_x :=
                a + (ll_to_double r / ll_to_double RAND_MAX) * range in
              y <- call f random_x ;; ret (sum + y))
           0%Z 0 ;;
  ret ((sum / ll_to_double n) * range).

Local Close Scope float_scope.

(** The seven rules, in the order of the header file. *)
Definition all_rules (RAND_MAX : Z)
  : list (nat -> option IntegrationParams -> M float) :=
  [ rectangle_left_endpoint; rectangle_right_endpoint; rectangle_midpoint;
    trapezoidal_rule; simpsons_1_3_rule; simpsons_3_8_rule;
    monte_carlo_integration RAND_MAX ].

(** The six rules that never call [rand()]. *)
Definition deterministic_rules
  : list (nat -> option IntegrationParams -> M float) :=
  [ rectangle_left_endpoint; rectangle_right_endpoint; rectangle_midpoint;
    trapezoidal_rule; simpsons_1_3_rule; simpsons_3_8_rule ].

(** ** Requests, as the specification classifies them *)

(** A malformed request: no function, a non-positive interval count, or
    [upper <= lower]. *)
Definition invalid_request (p : IntegrationParams) : Prop :=
  func p = None \/ num_intervals p <= 0 \/
  (upper_bound p <=? lower_bound p)%float = true.

(** The request [{ f, a, b, n }] behind a non-null pointer. *)
Definition request (f : MathFunction) (a b : float) (n : Z)
  : option IntegrationParams :=
  Some (mkParams (Some f) a b n).

(** ** Reference values, in the words of the specification *)

(** [zrange lo s len] is [lo; lo + s; ...; lo + (len - 1) * s]. *)
Fixpoint zrange (lo s : Z) (len : nat) : list Z :=
  match len with
  | O => []
  | S len' => lo :: zrange (lo + s) s len'
  end.

(** Subintervals [0 .. n-1]. *)
Definition subintervals (n : Z) : list Z := zrange 0 1 (Z.to_nat n).

(** Interior indices [1 .. n-1]. *)
Definition interior (n : Z) : list Z := zrange 1 1 (Z.to_nat (n - 1)).

(** Odd interior indices [1, 3, ..., n-1] and even interior indices
    [2, 4, ..., n-2] of an even [n]. *)
Definition odd_interior (n : Z) : list Z := zrange 1 2 (Z.to_nat (n / 2)).
Definition even_interior (n : Z) : list Z := zrange 2 2 (Z.to_nat (n / 2 - 1)).

(** Width of a subinterval: [dx = (upper - lower) / n]. *)
Definition step_width (a b : float) (n : Z) : float :=
  ((b - a) / ll_to_double n)%float.

(** The abscissa of index [i]: [a + i * dx]. *)
Definition node (a dx : float) (i : Z) : float :=
  (a + ll_to_double i * dx)%float.

(** The midpoint of subinterval [i]: [a + (i + 0.5) * dx]. *)
Definition midnode (a dx : float) (i : Z) : float :=
  (a + (ll_to_double i + 0.5) * dx)%float.

(** Left-to-right accumulation of [f (x i)] over the indices [l], from
    [sum0]. *)
Definition plain_sum (f : MathFunction) (x : Z -> float)
    (l : list Z) (sum0 : float) : float :=
  fold_left (fun sum i => (sum + f (x i))%float) l sum0.

(** Left-to-right accumulation of [weight i * f (x i)] over the indices [l],
    from [sum0]. *)
Definition weighted_sum (f : MathFunction) (x : Z -> float)
    (weight : Z -> float) (l : list Z) (sum0 : float) : float :=
  fold_left (fun sum i => (sum + weight i * f (x i))%float) l sum0.

Definition left_rectangle_points (a b : float) (n : Z) : list float :=
  map (fun i => node a (step_width a b n) i) (subintervals n).

Definition left_rectangle_value (f : MathFunction) (a b : float) (n : Z)
  : float :=
  let dx := step_width a b n in
  (plain_sum f (fun i => node a dx i) (subintervals n) 0 * dx)%float.

Definition right_rectangle_points (a b : float) (n : Z) : list float :=
  map (fun i => node a (step_width a b n) (i + 1)) (subintervals n).

Definition right_rectangle_value (f : MathFunction) (a b : float) (n : Z)
  : float :=
  let dx := step_width a b n in
  (plain_sum f (fun i => node a dx (i + 1)) (subintervals n) 0 * dx)%float.

Definition midpoint_points (a b : float) (n : Z) : list float :=
  map (fun i => midnode a (step_width a b n) i) (subintervals n).

Definition midpoint_value (f : MathFunction) (a b : float) (n : Z) : float :=
  let dx := step_width a b n in
  (plain_sum f (fun i => midnode a dx i) (subintervals n) 0 * dx)%float.

(** Endpoints first, then the interior nodes. *)
Definition trapezoidal_points (a b : float) (n : Z) : list float :=
  [a; b] ++ map (node a (step_width a b n)) (interior n).

(** The two endpoints weigh one half, every interior node weighs one. *)
Definition trapezoidal_value (f : MathFunction) (a b : float) (n : Z) : float :=
  let dx := step_width a b n in
  (plain_sum f (node a dx) (interior n) (0.5 * (f a + f b)) * dx)%float.

Definition simpson_1_3_points (a b : float) (n : Z) : list float :=
  let dx := step_width a b n in
  [a; b] ++ map (node a dx) (odd_interior n) ++ map (node a dx) (even_interior n).

(** Endpoints with weight 1, odd interior nodes with weight 4, even interior
    nodes with weight 2; then [sum * dx / 3]. *)
Definition simpson_1_3_value (f : MathFunction) (a b : float) (n : Z) : float :=
  let dx := step_width a b n in
  (weighted_sum f (node a dx) (fun _ => 2) (even_interior n)
     (weighted_sum f (node a dx) (fun _ => 4) (odd_interior n) (f a + f b))
   * dx / 3)%float.

(** The weight Simpson's 3/8 rule gives to interior index [i]. *)
Definition weight_3_8 (i : Z) : float :=
  if Z.rem i 3 =? 0 then 2%float else 3%float.

Definition simpson_3_8_points (a b : float) (n : Z) : list float :=
  [a; b] ++ map (node a (step_width a b n)) (interior n).

(** Endpoints with weight 1, interior node [i] with weight [weight_3_8 i];
    then [sum * dx * 3 / 8]. *)
Definition simpson_3_8_value (f : MathFunction) (a b : float) (n : Z) : float :=
  let dx := step_width a b n in
  (weighted_sum f (node a dx) weight_3_8 (interior n) (f a + f b)
   * dx * 3 / 8)%float.

(** The sample drawn from the generator output [r]:
    [a + (r / RAND_MAX) * (b - a)]. *)
Definition draw (RAND_MAX : Z) (a b : float) (r : Z) : float :=
  (a + (ll_to_double r / ll_to_double RAND_MAX) * (b - a))%float.

(** The next [k] outputs of the generator. *)
Definition rand_draws (w : World) (k : nat) : list Z :=
  map (rand_src w) (seq (rand_next w) k).

Definition monte_carlo_samples (RAND_MAX : Z) (a b : float) (n : Z) (w : World)
  : list float :=
  map (draw RAND_MAX a b) (rand_draws w (Z.to_nat n)).

(** Mean of the integrand over the samples, times the width of the
    interval. *)
Definition monte_carlo_value (RAND_MAX : Z) (f : MathFunction) (a b : float)
    (n : Z) (w : World) : float :=
  (fold_left (fun acc x => acc + f x) (monte_carlo_samples RAND_MAX a b n w) 0
   / ll_to_double n * (b - a))%float.

(** ** Loop headers as index ranges *)

(** The successive values of the counter for which the body of a loop runs;
    it depends on the header alone. *)
Fixpoint loop_indices (fuel : nat) (cond : Z -> bool) (step : Z -> Z)
    (i : Z) : option (list Z) :=
  match fuel with
  | O => None
  | S fuel' =>
      if cond i then option_map (cons i) (loop_indices fuel' cond step (step i))
      else Some []
  end.

(** Running a body over a list of indices. *)
Fixpoint foldM (body : Z -> float -> M float) (l : list Z) (sum : float)
  : M float :=
  match l with
  | [] => ret sum
  | i :: l' => sum' <- body i sum ;; foldM body l' sum'
  end.

(** The weights Simpson's 1/3 rule applies, read off its code: 1 for each of
    the two endpoint terms, 4 for every index the first loop header visits,
    2 for every index the second one visits. *)
Definition simpson_1_3_weights (fuel : nat) (n : Z) : option (list Z) :=
  match loop_indices fuel (fun i => i <? n) (fun i => ll_wrap (i + 2)) 1,
        loop_indices fuel (fun i => i <? ll_wrap (n - 1))
          (fun i => ll_wrap (i + 2)) 2
  with
  | Some odds, Some evens =>
      Some ([1; 1] ++ map (fun _ => 4) odds ++ map (fun _ => 2) evens)
  | _, _ => None
  end.

Definition total (ws : list Z) : Z := fold_right Z.add 0 ws.

(** ** Comparing calls *)

(** Two calls end the same way, with the same returned double. *)
Definition same_result {A} (o1 o2 : outcome A) : Prop :=
  match o1, o2 with
  | Done a1 _, Done a2 _ => a1 = a2
  | Undefined, Undefined => True
  | OutOfFuel, OutOfFuel => True
  | _, _ => False
  end.

(** A computation whose result does not depend on the world it starts in. *)
Definition oblivious {A} (m : M A) : Prop :=
  forall w1 w2, same_result (m w1) (m w2).

(** A larger step budget does not change what a call returns. *)
Definition fuel_monotone {A} (m : nat -> M A) : Prop :=
  forall fuel fuel' w a w',
    (fuel <= fuel')%nat -> m fuel w = Done a w' -> m fuel' w = Done a w'.

(** The draws a call has made lie strictly below [upper]. *)
Definition draws_below (upper : float) (o : outcome float) : Prop :=
  match o with
  | Done _ w => forall x, In x (evals w) -> (x <? upper)%float = true
  | _ => True
  end.

(** The call returned NaN. *)
Definition returns_nan (o : outcome float) : Prop :=
  match o with
  | Done r _ => is_nan r = true
  | _ => False
  end.

(** The double a call returned; NaN stands for a call without result. *)
Definition returned (o : outcome float) : float :=
  match o with
  | Done r _ => r
  | _ => nan
  end.

(** ** Sample inputs *)

(** [f_quadratic] of [main.c]. *)
Definition f_quadratic : MathFunction := fun x => (x * x)%float.

(** A straight line through [(0, 1.5 * 2^1023)] and [(1, -1.5 * 2^1023)]:
    finite on the whole of [0, 1]. *)
Definition f_steep : MathFunction := fun x => ((1 - 2 * x) * 0x1.8p1023)%float.

(** A world whose generator returns 0, 1, 2, ... *)
Definition rand_counter : World :=
  {| rand_src := Z.of_nat; rand_next := 0; evals := [] |}.

(** A world whose generator always returns [r], and in which no integrand has
    been called yet. *)
Definition rand_const (r : Z) : World :=
  {| rand_src := fun _ => r; rand_next := 0; evals := [] |}.

(** ** Further properties of computations *)

(** A computation that never dereferences or calls a null pointer. *)
Definition never_undefined {A} (m : M A) : Prop :=
  forall w, m w <> Undefined.

(** A computation that, when it returns, has done nothing to the world but
    call the integrand: the generator is where it was. *)
Definition appends_calls_only {A} (m : M A) : Prop :=
  forall w a w', m w = Done a w' -> exists xs, w' = log_evals xs w.

(** The number of integrand calls a returning call has added to the log of
    the world [w] it started in. *)
Definition calls_made (w : World) (o : outcome float) : option Z :=
  match o with
  | Done _ w' => Some (Z.of_nat (length (evals w')) - Z.of_nat (length (evals w)))
  | _ => None
  end.

(** * The benchmark driver of [main.c]

    [main] runs every rule on every test problem for every interval count,
    times each call, and writes one CSV row per call.  What it takes from
    the C library is a parameter ([Libc.t]) or an input (the time of day,
    whether [malloc] and [fopen] succeed).  Its output is kept as the list of
    the [printf]/[fprintf] calls it makes, each with its destination, its
    format string (as the source spells it, escape sequences unexpanded) and
    its arguments.  The counted loops over the tables and over the result
    array visit the entries in order. *)

Definition INT_MAX : Z := 2147483647.
Definition INT_MIN : Z := -2147483648.

(** Two's-complement reduction to the range of [int]. *)
Definition int_wrap (z : Z) : Z := (z - INT_MIN) mod 2 ^ 32 + INT_MIN.

Module Libc.
Record t : Type := mk {
  RAND_MAX : Z;                    (* of [stdlib.h] *)
  CLOCKS_PER_SEC : Z;              (* of [time.h]; [clock_t] is a [long] *)
  seeded : Z -> nat -> Z;          (* the outputs of [rand()] after [srand(seed)] *)
  sin : float -> float;            (* of [math.h] *)
  exp : float -> float;
  M_PI : float
}.
End Libc.

(** Modelled from the spec: [main.c] names the type of a pointer to a rule
    [IntegrationFunc], which the header does not declare; the seven rules
    share one signature, and that is the type. *)
Definition IntegrationFunc : Type := nat -> option IntegrationParams -> M float.

Module IntegrationResult.
Record t : Type := mk {
  method_name : string;
  function_name : string;
  num_intervals : Z;
  result : float;
  absolute_error : float;
  execution_time_ms : float
}.
End IntegrationResult.

Module IntegrationProblem.
Record t : Type := mk {
  func : option MathFunction;
  name : string;
  lower : float;
  upper : float;
  exact_value : float
}.
End IntegrationProblem.

Module Method.
Record t : Type := mk {
  func_ptr : IntegrationFunc;
  name : string
}.
End Method.

Inductive Arg : Type :=
| ArgInt (z : Z)            (* %d *)
| ArgLongLong (z : Z)       (* %lld *)
| ArgString (s : string)    (* %s *)
| ArgDouble (x : float).    (* %f, %e *)

Inductive Stream : Type := Stdout | Stderr | CsvFile.

(** One call of [printf] or [fprintf]. *)
Record Output : Type := mkOutput {
  stream : Stream;
  format : string;
  args : list Arg
}.

(** The running program: the world of the rules, the values [clock()] will
    return and how many have been read, what has been printed so far, and
    the heap blocks and files it holds. *)
Record Process : Type := mkProcess {
  world : World;
  clock_src : nat -> Z;
  clock_next : nat;
  output : list Output;
  live_blocks : nat;
  open_files : nat
}.

Inductive presult (A : Type) : Type :=
| PDone (a : A) (s : Process)
| PUndefined                 (* accessed the result array out of bounds or
                                uninitialised, or a rule did *)
| POutOfFuel.
Arguments PDone {A} a s.
Arguments PUndefined {A}.
Arguments POutOfFuel {A}.

Definition P (A : Type) : Type := Process -> presult A.

Definition pret {A} (a : A) : P A := fun s => PDone a s.

Definition pbind {A B} (m : P A) (k : A -> P B) : P B :=
  fun s => match m s with
           | PDone a s' => k a s'
           | PUndefined => PUndefined
           | POutOfFuel => POutOfFuel
           end.

Notation "x <-- m ;; k" := (pbind m (fun x => k))
  (at level 61, m at next level, right associativity).

Definition pundefined {A} : P A := fun _ => PUndefined.

(** A call into [integration_techniques.c]. *)
Definition lift {A} (m : M A) : P A :=
  fun s => match m (world s) with
           | Done a w' =>
               PDone a {| world := w'; clock_src := clock_src s;
                          clock_next := clock_next s; output := output s;
                          live_blocks := live_blocks s;
                          open_files := open_files s |}
           | Undefined => PUndefined
           | OutOfFuel => POutOfFuel
           end.

(** [clock()]. *)
Definition clock : P Z :=
  fun s => PDone (clock_src s (clock_next s))
             {| world := world s; clock_src := clock_src s;
                clock_next := S (clock_next s); output := output s;
                live_blocks := live_blocks s; open_files := open_files s |}.

(** [printf] and [fprintf]. *)
Definition emit (to : Stream) (fmt : string) (a : list Arg) : P unit :=
  fun s => PDone tt
             {| world := world s; clock_src := clock_src s;
                clock_next := clock_next s;
                output := output s ++ [mkOutput to fmt a];
                live_blocks := live_blocks s; open_files := open_files s |}.

(** [srand(seed)]: the generator restarts on the stream of that seed. *)
Definition srand (libc : Libc.t) (seed : Z) : P unit :=
  fun s => PDone tt
             {| world := {| rand_src := Libc.seeded libc seed; rand_next := 0;
                            evals := evals (world s) |};
                clock_src := clock_src s; clock_next := clock_next s;
                output := output s; live_blocks := live_blocks s;
                open_files := open_files s |}.

Definition set_resources (blocks files : nat) (s : Process) : Process :=
  {| world := world s; clock_src := clock_src s; clock_next := clock_next s;
     output := output s; live_blocks := blocks; open_files := files |}.

(** [malloc(count * sizeof(IntegrationResult))]: a null pointer, or a block
    of [count] slots with indeterminate contents. *)
Definition malloc (ok : bool) (count : Z)
  : P (option (list (option IntegrationResult.t))) :=
  fun s =>
    if ok then
      PDone (Some (repeat None (Z.to_nat count)))
            (set_resources (S (live_blocks s)) (open_files s) s)
    else PDone None s.

Definition free : P unit :=
  fun s => PDone tt (set_resources (Nat.pred (live_blocks s)) (open_files s) s).

(** [fopen(CSV_FILENAME, "w")]: whether a file was opened. *)
Definition fopen (ok : bool) : P bool :=
  fun s =>
    if ok then PDone true (set_resources (live_blocks s) (S (open_files s)) s)
    else PDone false s.

Definition fclose : P unit :=
  fun s => PDone tt (set_resources (live_blocks s) (Nat.pred (open_files s)) s).

Fixpoint list_update {A} (k : nat) (v : A) (l : list A) : list A :=
  match l, k with
  | [], _ => []
  | _ :: l', O => v :: l'
  | x :: l', S k' => x :: list_update k' v l'
  end.

(** [results[i] = v]. *)
Definition store (results : list (option IntegrationResult.t)) (i : Z)
    (v : IntegrationResult.t) : P (list (option IntegrationResult.t)) :=
  if (0 <=? i) && (i <? Z.of_nat (length results))
  then pret (list_update (Z.to_nat i) (Some v) results)
  else pundefined.

(** [results[i]], read. *)
Definition load (results : list (option IntegrationResult.t)) (i : Z)
  : P IntegrationResult.t :=
  match (if 0 <=? i then nth_error results (Z.to_nat i) else None) with
  | Some (Some v) => pret v
  | _ => pundefined
  end.

(** A counted loop over a table, first entry first. *)
Fixpoint for_each {A S : Type} (l : list A) (body : A -> S -> P S) (s : S)
  : P S :=
  match l with
  | [] => pret s
  | x :: l' => s' <-- body x s ;; for_each l' body s'
  end.

Definition CSV_FILENAME : string := "integration_comparison.csv".

Definition F_QUADRATIC_EXACT : float := (1 / 3)%float.

Definition f_sin (libc : Libc.t) : MathFunction := fun x => Libc.sin libc x.
Definition F_SIN_EXACT : float := 2%float.

Definition f_gaussian (libc : Libc.t) : MathFunction :=
  fun x => Libc.exp libc ((- x) * x)%float.

(** [0.746824132812], as the nearest double. *)
Definition F_GAUSSIAN_EXACT : float := 0x1.7e5fbb94950b2p-1%float.

Definition problems (libc : Libc.t) : list IntegrationProblem.t :=
  [ IntegrationProblem.mk (Some f_quadratic) "x^2" 0 1 F_QUADRATIC_EXACT;
    IntegrationProblem.mk (Some (f_sin libc)) "sin(x)" 0 (Libc.M_PI libc)
      F_SIN_EXACT;
    IntegrationProblem.mk (Some (f_gaussian libc)) "exp(-x^2)" 0 1
      F_GAUSSIAN_EXACT ].

Definition methods (libc : Libc.t) : list Method.t :=
  [ Method.mk rectangle_left_endpoint "1. Left Rectangle";
    Method.mk rectangle_right_endpoint "2. Right Rectangle";
    Method.mk rectangle_midpoint "3. Midpoint Rule";
    Method.mk trapezoidal_rule "4. Trapezoidal Rule";
    Method.mk simpsons_1_3_rule "5. Simpson's 1/3 Rule";
    Method.mk simpsons_3_8_rule "6. Simpson's 3/8 Rule";
    Method.mk (monte_carlo_integration (Libc.RAND_MAX libc)) "7. Monte Carlo" ].

Definition interval_counts : list Z := [100; 1000; 10000; 100000; 1000000].

(** The interval count [main] hands to a method: the table's count, made
    even for Simpson's 1/3 rule and a multiple of 3 for Simpson's 3/8 rule. *)
Definition adjust_intervals (method : string) (n : Z) : Z :=
  let current_n :=
    if (method =? "5. Simpson's 1/3 Rule")%string && negb (Z.rem n 2 =? 0)
    then ll_wrap (n + 1) else n in
  if (method =? "6. Simpson's 3/8 Rule")%string
     && negb (Z.rem current_n 3 =? 0)
  then ll_wrap (current_n + (3 - Z.rem current_n 3)) else current_n.

(** The body of the innermost loop of [main]: one timed call, stored at
    [results[result_index]]. *)
Definition benchmark_case (libc : Libc.t) (fuel : nat)
    (problem : IntegrationProblem.t) (count : Z) (method : Method.t)
    (st : list (option IntegrationResult.t) * Z)
  : P (list (option IntegrationResult.t) * Z) :=
  let (results, result_index) := st in
  let current_n := adjust_intervals (Method.name method) count in
  let params :=
    {| func := IntegrationProblem.func problem;
       lower_bound := IntegrationProblem.lower problem;
       upper_bound := IntegrationProblem.upper problem;
       num_intervals := current_n |} in
  start <-- clock ;;
  integral_result <-- lift (Method.func_ptr method fuel (Some params)) ;;
  end_ <-- clock ;;
  let time_spent_ms :=
    (ll_to_double (ll_wrap (end_ - start))
     / ll_to_double (Libc.CLOCKS_PER_SEC libc) * 1000)%float in
  let error :=
    abs (integral_result - IntegrationProblem.exact_value problem)%float in
  results' <-- store results result_index
    {| IntegrationResult.method_name := Method.name method;
       IntegrationResult.function_name := IntegrationProblem.name problem;
       IntegrationResult.num_intervals := current_n;
       IntegrationResult.result := integral_result;
       IntegrationResult.absolute_error := error;
       IntegrationResult.execution_time_ms := time_spent_ms |} ;;
  pret (results', int_wrap (result_index + 1)).

(** The three nested loops of [main]. *)
Definition run_benchmarks (libc : Libc.t) (fuel : nat)
    (st : list (option IntegrationResult.t) * Z)
  : P (list (option IntegrationResult.t) * Z) :=
  for_each (problems libc)
    (fun problem st =>
       st' <-- for_each interval_counts
                 (fun count st =>
                    for_each (methods libc)
                      (fun method st =>
                         benchmark_case libc fuel problem count method st)
                      st)
                 st ;;
       _ <-- emit Stdout "Completed benchmarks for function: %s\n"
               [ArgString (IntegrationProblem.name problem)] ;;
       pret st')
    st.

(** The row [main] writes for one result. *)
Definition csv_row (r : IntegrationResult.t) : Output :=
  if is_nan (IntegrationResult.result r) then
    mkOutput CsvFile "%s,%s,%lld,INVALID_N,INVALID_N,%.4f\n"
      [ ArgString (IntegrationResult.function_name r);
        ArgString (IntegrationResult.method_name r);
        ArgLongLong (IntegrationResult.num_intervals r);
        ArgDouble (IntegrationResult.execution_time_ms r) ]
  else
    mkOutput CsvFile "%s,%s,%lld,%.12f,%.12e,%.4f\n"
      [ ArgString (IntegrationResult.function_name r);
        ArgString (IntegrationResult.method_name r);
        ArgLongLong (IntegrationResult.num_intervals r);
        ArgDouble (IntegrationResult.result r);
        ArgDouble (IntegrationResult.absolute_error r);
        ArgDouble (IntegrationResult.execution_time_ms r) ].

Definition csv_header : Output :=
  mkOutput CsvFile
    "FunctionName,Method,NumIntervals,Result,AbsoluteError,ExecutionTime_ms\n"
    [].

(** The export loop of [main]. *)
Definition export_rows (results : list (option IntegrationResult.t))
    (total_results : Z) : P unit :=
  for_each (zrange 0 1 (Z.to_nat total_results))
    (fun i _ =>
       r <-- load results i ;;
       emit (stream (csv_row r)) (format (csv_row r)) (args (csv_row r)))
    tt.

(** [main]; its value is the exit status. *)
Definition main (libc : Libc.t) (now : Z) (malloc_ok fopen_ok : bool)
    (fuel : nat) : P Z :=
  _ <-- srand libc (now mod 2 ^ 32) ;;
  let num_problems := Z.of_nat (length (problems libc)) in
  let num_methods := Z.of_nat (length (methods libc)) in
  let num_interval_tests := Z.of_nat (length interval_counts) in
  let total_results :=
    int_wrap (int_wrap (num_problems * num_methods) * num_interval_tests) in
  _ <-- emit Stdout "Preparing to run %d test cases...\n"
          [ArgInt total_results] ;;
  allocated <-- malloc malloc_ok total_results ;;
  match allocated with
  | None =>
      _ <-- emit Stderr
              "Fatal: Memory allocation failed for results array.\n" [] ;;
      pret 1
  | Some results =>
      st <-- run_benchmarks libc fuel (results, 0) ;;
      _ <-- emit Stdout "Exporting results to %s...\n"
              [ArgString CSV_FILENAME] ;;
      csv_file <-- fopen fopen_ok ;;
      if negb csv_file then
        _ <-- emit Stderr "Error: Could not open file %s for writing.\n"
                [ArgString CSV_FILENAME] ;;
        _ <-- free ;;
        pret 1
      else
        _ <-- emit CsvFile (format csv_header) (args csv_header) ;;
        _ <-- export_rows (fst st) total_results ;;
        _ <-- fclose ;;
        _ <-- emit Stdout "Export complete.\n" [] ;;
        _ <-- free ;;
        _ <-- emit Stdout "Memory freed. Program finished successfully.\n" [] ;;
        pret 0
  end.

(** ** What a run of the driver leaves behind *)

(** A benchmark case: a problem, an interval count of the table, a method. *)
Definition Case : Type := (IntegrationProblem.t * Z * Method.t)%type.

(** The cases in the order of the three nested loops: problem by problem,
    count by count, method by method. *)
Definition cases (libc : Libc.t) : list Case :=
  flat_map (fun problem =>
              flat_map (fun count =>
                          map (fun method => (problem, count, method))
                              (methods libc))
                       interval_counts)
           (problems libc).

(** The request [main] builds for a case. *)
Definition case_params (c : Case) : IntegrationParams :=
  let '(problem, count, method) := c in
  {| func := IntegrationProblem.func problem;
     lower_bound := IntegrationProblem.lower problem;
     upper_bound := IntegrationProblem.upper problem;
     num_intervals := adjust_intervals (Method.name method) count |}.

(** [r] is a result record of the case [c]: it carries the names of the
    problem and of the method, the adjusted interval count, a double the
    method returned on the request of the case, and the distance of that
    double to the exact value. *)
Definition row_of (fuel : nat) (c : Case) (r : IntegrationResult.t) : Prop :=
  let '(problem, count, method) := c in
  IntegrationResult.function_name r = IntegrationProblem.name problem /\
  IntegrationResult.method_name r = Method.name method /\
  IntegrationResult.num_intervals r =
    adjust_intervals (Method.name method) count /\
  IntegrationResult.absolute_error r =
    abs (IntegrationResult.result r
         - IntegrationProblem.exact_value problem)%float /\
  exists w w',
    Method.func_ptr method fuel (Some (case_params c)) w =
    Done (IntegrationResult.result r) w'.

(** The result array once the records [rs] have been stored in order: the
    remaining slots are indeterminate. *)
Definition slots (total : nat) (rs : list IntegrationResult.t)
  : list (option IntegrationResult.t) :=
  map Some rs ++ repeat None (total - length rs).

(** From [s] to [s'] the program has printed [outs], in that order, and holds
    the same heap blocks and open files. *)
Definition emitted (outs : list Output) (s s' : Process) : Prop :=
  output s' = output s ++ outs /\
  live_blocks s' = live_blocks s /\
  open_files s' = open_files s.

Definition completed_message (problem : IntegrationProblem.t) : Output :=
  mkOutput Stdout "Completed benchmarks for function: %s\n"
    [ArgString (IntegrationProblem.name problem)].

(** Everything a run that succeeds prints, given the records [rs] it
    stored. *)
Definition success_output (libc : Libc.t) (rs : list IntegrationResult.t)
  : list Output :=
  [mkOutput Stdout "Preparing to run %d test cases...\n" [ArgInt 105]]
  ++ map completed_message (problems libc)
  ++ [mkOutput Stdout "Exporting results to %s...\n" [ArgString CSV_FILENAME];
      csv_header]
  ++ map csv_row rs
  ++ [mkOutput Stdout "Export complete.\n" [];
      mkOutput Stdout "Memory freed. Program finished successfully.\n" []].

(** Everything a run prints when the CSV file cannot be opened. *)
Definition no_file_output (libc : Libc.t) : list Output :=
  [mkOutput Stdout "Preparing to run %d test cases...\n" [ArgInt 105]]
  ++ map completed_message (problems libc)
  ++ [mkOutput Stdout "Exporting results to %s...\n" [ArgString CSV_FILENAME];
      mkOutput Stderr "Error: Could not open file %s for writing.\n"
        [ArgString CSV_FILENAME]].

(** Everything a run prints when the result array cannot be allocated. *)
Definition no_memory_output : list Output :=
  [mkOutput Stdout "Preparing to run %d test cases...\n" [ArgInt 105];
   mkOutput Stderr "Fatal: Memory allocation failed for results array.\n" []].

(** ** Sample inputs of the driver *)

(** A C library to run [main] against: the constants of glibc on x86-64, a
    generator that counts up from its seed, and stand-ins for [sin] and
    [exp]. *)
Definition sample_libc : Libc.t :=
  {| Libc.RAND_MAX := 2147483647;
     Libc.CLOCKS_PER_SEC := 1000000;
     Libc.seeded := fun seed k => (seed + Z.of_nat k) mod 2147483648;
     Libc.sin := fun x => x;
     Libc.exp := fun x => x;
     Libc.M_PI := 0x1.921fb54442d18p+1%float |}.

(** A program that has not run yet: nothing printed, no block, no file. *)
Definition boot : Process :=
  {| world := rand_const 0; clock_src := fun k => Z.of_nat k;
     clock_next := 0; output := []; live_blocks := 0; open_files := 0 |}.

(** * Lemmas *)

(** ** Machine integers *)

Lemma ll_wrap_id (z : Z) : ll_range z -> ll_wrap z = z.
Proof.
  unfold ll_range, ll_wrap, LLONG_MIN, LLONG_MAX. intros H.
  rewrite Z.mod_small by lia. lia.
Qed.

Lemma ll_wrap_range (z : Z) : ll_range (ll_wrap z).
Proof.
  unfold ll_range, ll_wrap, LLONG_MIN, LLONG_MAX.
  pose proof (Z.mod_pos_bound (z - -9223372036854775808) (2 ^ 64) ltac:(lia)).
  lia.
Qed.

Lemma even_half (n : Z) :
  0 < n -> Z.rem n 2 = 0 -> n = 2 * (n / 2) /\ 0 < n / 2.
Proof.
  intros Hn Hr. rewrite Z.rem_mod_nonneg in Hr by lia.
  pose proof (Z.div_mod n 2 ltac:(lia)). lia.
Qed.

Lemma rem2_even (n : Z) : 0 < n -> Z.rem n 2 = 0 <-> Z.even n = true.
Proof.
  intros Hn. rewrite Z.rem_mod_nonneg by lia. rewrite Z.even_spec. split.
  - intros H. exists (n / 2). pose proof (Z.div_mod n 2 ltac:(lia)). lia.
  - intros [k ->]. rewrite Z.mul_comm. apply Z.mod_mul. lia.
Qed.

Lemma rem2_odd (n : Z) : 0 < n -> Z.rem n 2 <> 0 <-> Z.odd n = true.
Proof.
  intros Hn. rewrite rem2_even by assumption.
  rewrite <- Z.negb_even. destruct (Z.even n); simpl; intuition congruence.
Qed.

(** ** Index ranges *)

Lemma zrange_length (len : nat) : forall lo s, length (zrange lo s len) = len.
Proof. induction len as [|len IH]; intros; simpl; [|rewrite IH]; reflexivity. Qed.

Lemma zrange_In (len : nat) : forall lo s i,
  In i (zrange lo s len) <->
  exists k, 0 <= k < Z.of_nat len /\ i = lo + k * s.
Proof.
  induction len as [|len IH]; intros lo s i; simpl.
  - split; [tauto | intros (k & Hk & _); lia].
  - rewrite IH. split.
    + intros [<- | (k & Hk & ->)].
      * exists 0. lia.
      * exists (k + 1). lia.
    + intros (k & Hk & ->).
      destruct (Z.eq_dec k 0) as [-> | Hne]; [left; lia|].
      right. exists (k - 1). lia.
Qed.

Lemma zrange_NoDup (len : nat) : forall lo s, 0 < s -> NoDup (zrange lo s len).
Proof.
  induction len as [|len IH]; intros lo s Hs; simpl; constructor.
  - rewrite zrange_In. intros (k & Hk & Heq). nia.
  - apply IH, Hs.
Qed.

Lemma zrange_shift (d : Z) (len : nat) : forall lo s,
  zrange (lo + d) s len = map (fun i => i + d) (zrange lo s len).
Proof.
  induction len as [|len IH]; intros lo s; simpl; [reflexivity|].
  f_equal. rewrite <- IH. f_equal. lia.
Qed.

Lemma odd_interior_In (n i : Z) :
  0 < n -> Z.rem n 2 = 0 ->
  In i (odd_interior n) <-> 1 <= i <= n - 1 /\ Z.odd i = true.
Proof.
  intros Hn Hr. destruct (even_half n Hn Hr) as [Hk Hpos].
  unfold odd_interior. rewrite zrange_In, Z.odd_spec. split.
  - intros (k & Hrange & ->). split; [lia | exists k; lia].
  - intros [Hrange [k ->]]. exists k. lia.
Qed.

Lemma even_interior_In (n i : Z) :
  0 < n -> Z.rem n 2 = 0 ->
  In i (even_interior n) <-> 2 <= i <= n - 2 /\ Z.even i = true.
Proof.
  intros Hn Hr. destruct (even_half n Hn Hr) as [Hk Hpos].
  unfold even_interior. rewrite zrange_In, Z.even_spec. split.
  - intros (k & Hrange & ->). split; [lia | exists (k + 1); lia].
  - intros [Hrange [k ->]]. exists (k - 1). lia.
Qed.

Lemma simpson_interior_NoDup (n : Z) :
  0 < n -> Z.rem n 2 = 0 -> NoDup (odd_interior n ++ even_interior n).
Proof.
  intros Hn Hr. apply NoDup_app.
  - apply zrange_NoDup. lia.
  - apply zrange_NoDup. lia.
  - intros i Hodd Heven.
    apply odd_interior_In in Hodd; try assumption.
    apply even_interior_In in Heven; try assumption.
    destruct Hodd as [_ Hodd], Heven as [_ Heven].
    rewrite <- Z.negb_even, Heven in Hodd. discriminate.
Qed.

Lemma simpson_interior_complete (n i : Z) :
  0 < n -> Z.rem n 2 = 0 ->
  In i (odd_interior n ++ even_interior n) <-> 1 <= i <= n - 1.
Proof.
  intros Hn Hr. destruct (even_half n Hn Hr) as [Hk Hpos].
  rewrite in_app_iff, odd_interior_In, even_interior_In by assumption.
  split.
  - intros [[H _] | [H _]]; lia.
  - intros H. destruct (Z.even i) eqn:E.
    + right. split; [|reflexivity].
      apply Z.even_spec in E. destruct E as [k ->]. lia.
    + left. split; [assumption|]. now rewrite <- Z.negb_even, E.
Qed.

Lemma total_app (l1 l2 : list Z) : total (l1 ++ l2) = total l1 + total l2.
Proof. induction l1 as [|x l1 IH]; simpl; [reflexivity | rewrite IH; lia]. Qed.

Lemma total_constant (c : Z) (l : list Z) :
  total (map (fun _ => c) l) = c * Z.of_nat (length l).
Proof. induction l as [|x l IH]; simpl length; simpl; [lia | rewrite IH; lia]. Qed.

(** ** Loops *)

Lemma for_loop_foldM (body : Z -> float -> M float) (cond : Z -> bool)
    (step : Z -> Z) (fuel : nat) :
  forall i l sum w,
    loop_indices fuel cond step i = Some l ->
    for_loop fuel cond step body i sum w = foldM body l sum w.
Proof.
  induction fuel as [|fuel IH]; intros i l sum w; simpl; [discriminate|].
  destruct (cond i).
  - destruct (loop_indices fuel cond step (step i)) as [l'|] eqn:E;
      simpl; [|discriminate].
    intros [= <-]. simpl. unfold bind.
    destruct (body i sum w); try reflexivity. now apply IH.
  - now intros [= <-].
Qed.

(** A loop whose counter starts at [i], advances by [s] and runs while it is
    below [m] visits [zrange i s len], provided the counter cannot leave the
    [long long] range and the budget covers [len] rounds and the last test. *)
Lemma loop_indices_below (cond : Z -> bool) (m s : Z) (len : nat) :
  (forall j, cond j = (j <? m)) ->
  0 < s -> m + s - 1 <= LLONG_MAX ->
  forall fuel i,
    LLONG_MIN <= i ->
    m <= i + Z.of_nat len * s ->
    (0 < Z.of_nat len -> i + (Z.of_nat len - 1) * s < m) ->
    (len < fuel)%nat ->
    loop_indices fuel cond (fun j => ll_wrap (j + s)) i = Some (zrange i s len).
Proof.
  intros Hcond Hs Hm.
  induction len as [|len IH]; intros fuel i Hi Hge Hlt Hfuel;
    (destruct fuel as [|fuel]; [lia|]); simpl; rewrite Hcond.
  - destruct (Z.ltb_spec i m); [lia | reflexivity].
  - destruct (Z.ltb_spec i m); [|nia].
    rewrite ll_wrap_id by (unfold ll_range; lia).
    rewrite IH; [reflexivity | lia | lia | lia | lia].
Qed.

Lemma log_evals_app (xs ys : list float) (w : World) :
  log_evals ys (log_evals xs w) = log_evals (xs ++ ys) w.
Proof. unfold log_evals; simpl. now rewrite app_assoc. Qed.

(** A body that calls the integrand once, at [x i], and returns [g i sum]. *)
Lemma foldM_logged (body : Z -> float -> M float) (g : Z -> float -> float)
    (x : Z -> float) :
  (forall i sum w, body i sum w = Done (g i sum) (log_evals [x i] w)) ->
  forall l sum w,
    foldM body l sum w =
    Done (fold_left (fun acc i => g i acc) l sum) (log_evals (map x l) w).
Proof.
  intros Hbody. induction l as [|i l IH]; intros sum w; simpl.
  - unfold ret, log_evals. destruct w; simpl. now rewrite app_nil_r.
  - unfold bind. rewrite Hbody, IH. now rewrite log_evals_app.
Qed.

Lemma for_loop_logged (body : Z -> float -> M float) (g : Z -> float -> float)
    (x : Z -> float) (cond : Z -> bool) (step : Z -> Z) (fuel : nat)
    (i : Z) (l : list Z) (sum : float) (w : World) :
  (forall j acc w', body j acc w' = Done (g j acc) (log_evals [x j] w')) ->
  loop_indices fuel cond step i = Some l ->
  for_loop fuel cond step body i sum w =
  Done (fold_left (fun acc j => g j acc) l sum) (log_evals (map x l) w).
Proof.
  intros Hbody Hidx.
  rewrite (for_loop_foldM body cond step fuel i l sum w Hidx).
  apply foldM_logged, Hbody.
Qed.

(** A loop that runs while [i <= LLONG_MAX] never leaves: the counter wraps
    around instead of exceeding the bound. *)
Lemma for_loop_through_llong_max (body : Z -> float -> M float) :
  (forall i sum w, exists sum' w', body i sum w = Done sum' w') ->
  forall fuel i sum w,
    i <= LLONG_MAX ->
    for_loop fuel (fun j => j <=? LLONG_MAX) (fun j => ll_wrap (j + 1))
      body i sum w = OutOfFuel.
Proof.
  intros Hbody. induction fuel as [|fuel IH]; intros i sum w Hi; simpl.
  - reflexivity.
  - destruct (Z.leb_spec i LLONG_MAX); [|lia].
    unfold bind. destruct (Hbody i sum w) as (sum' & w' & ->).
    apply IH. apply ll_wrap_range.
Qed.

(** ** The headers of the source, read as index ranges *)

Lemma indices_from_0 (n : Z) (fuel : nat) :
  0 < n <= LLONG_MAX -> (Z.to_nat n < fuel)%nat ->
  loop_indices fuel (fun i => i <? n) (fun i => ll_wrap (i + 1)) 0 =
  Some (subintervals n).
Proof.
  intros Hn Hfuel.
  apply loop_indices_below with (m := n);
    unfold LLONG_MIN, LLONG_MAX in *; auto; lia.
Qed.

Lemma indices_from_1 (n : Z) (fuel : nat) :
  0 < n <= LLONG_MAX -> (Z.to_nat n < fuel)%nat ->
  loop_indices fuel (fun i => i <? n) (fun i => ll_wrap (i + 1)) 1 =
  Some (interior n).
Proof.
  intros Hn Hfuel.
  apply loop_indices_below with (m := n);
    unfold LLONG_MIN, LLONG_MAX in *; auto; lia.
Qed.

Lemma indices_from_1_through (n : Z) (fuel : nat) :
  0 < n < LLONG_MAX -> (Z.to_nat n < fuel)%nat ->
  loop_indices fuel (fun i => i <=? n) (fun i => ll_wrap (i + 1)) 1 =
  Some (map (fun i => i + 1) (subintervals n)).
Proof.
  intros Hn Hfuel. unfold subintervals.
  rewrite <- (zrange_shift 1 (Z.to_nat n) 0 1).
  apply loop_indices_below with (m := n + 1);
    unfold LLONG_MIN, LLONG_MAX in *; try lia.
  all: intros j; destruct (Z.leb_spec j n), (Z.ltb_spec j (n + 1)); lia.
Qed.

Lemma indices_odd (n : Z) (fuel : nat) :
  0 < n <= LLONG_MAX -> Z.rem n 2 = 0 -> (Z.to_nat n < fuel)%nat ->
  loop_indices fuel (fun i => i <? n) (fun i => ll_wrap (i + 2)) 1 =
  Some (odd_interior n).
Proof.
  intros Hn Hr Hfuel. destruct (even_half n) as [Hk Hpos]; try lia.
  apply loop_indices_below with (m := n);
    unfold LLONG_MIN, LLONG_MAX in *; auto; lia.
Qed.

Lemma indices_even (n : Z) (fuel : nat) :
  0 < n <= LLONG_MAX -> Z.rem n 2 = 0 -> (Z.to_nat n < fuel)%nat ->
  loop_indices fuel (fun i => i <? ll_wrap (n - 1)) (fun i => ll_wrap (i + 2)) 2 =
  Some (even_interior n).
Proof.
  intros Hn Hr Hfuel. destruct (even_half n) as [Hk Hpos]; try lia.
  apply loop_indices_below with (m := n - 1);
    unfold LLONG_MIN, LLONG_MAX in *; try lia.
  all: intros j; rewrite ll_wrap_id; [reflexivity|];
    unfold ll_range, LLONG_MIN, LLONG_MAX; lia.
Qed.

(** ** Rejected requests *)

Lemma invalid_request_is_invalid (p : IntegrationParams) :
  invalid_request p -> is_invalid (Some p) = true.
Proof.
  unfold invalid_request, is_invalid.
  intros [Hf | [Hn | Hb]].
  - now rewrite Hf.
  - destruct (func p); [|reflexivity].
    apply Z.leb_le in Hn. now rewrite Hn.
  - destruct (func p); [|reflexivity].
    rewrite Hb. apply orb_true_r.
Qed.

Ltac unfold_rules :=
  unfold rectangle_left_endpoint, rectangle_right_endpoint,
    rectangle_midpoint, trapezoidal_rule, simpsons_1_3_rule,
    simpsons_3_8_rule, monte_carlo_integration.

Lemma rejected_returns_nan (RAND_MAX : Z)
    (rule : nat -> option IntegrationParams -> M float)
    (fuel : nat) (params : option IntegrationParams) (w : World) :
  In rule (all_rules RAND_MAX) ->
  is_invalid params = true ->
  rule fuel params w = Done nan w.
Proof.
  intros Hin Hinv. unfold all_rules in Hin. simpl in Hin.
  repeat (destruct Hin as [<- | Hin]);
    try (unfold_rules; rewrite Hinv; reflexivity).
  contradiction.
Qed.

(** ** What each rule computes on a well-formed request *)

Lemma valid_not_invalid (f : MathFunction) (a b : float) (n : Z) :
  0 < n -> (b <=? a)%float = false -> is_invalid (request f a b n) = false.
Proof.
  intros Hn Hab. unfold is_invalid, request; simpl.
  rewrite Hab, orb_false_r. apply Z.leb_gt. lia.
Qed.

Ltac enter_rule Hn Hab :=
  unfold_rules; rewrite valid_not_invalid by (assumption || apply Hn);
  unfold request, bind, deref, ret, call; simpl.

Lemma left_endpoint_valid (f : MathFunction) (a b : float) (n : Z)
    (fuel : nat) (w : World) :
  0 < n <= LLONG_MAX -> (b <=? a)%float = false -> (Z.to_nat n < fuel)%nat ->
  rectangle_left_endpoint fuel (request f a b n) w =
  Done (left_rectangle_value f a b n)
       (log_evals (left_rectangle_points a b n) w).
Proof.
  intros Hn Hab Hfuel. enter_rule Hn Hab.
  erewrite for_loop_logged with (x := node a (step_width a b n))
    (g := fun i acc => (acc + f (node a (step_width a b n) i))%float);
    [reflexivity | reflexivity | now apply indices_from_0].
Qed.

Lemma midpoint_valid (f : MathFunction) (a b : float) (n : Z)
    (fuel : nat) (w : World) :
  0 < n <= LLONG_MAX -> (b <=? a)%float = false -> (Z.to_nat n < fuel)%nat ->
  rectangle_midpoint fuel (request f a b n) w =
  Done (midpoint_value f a b n) (log_evals (midpoint_points a b n) w).
Proof.
  intros Hn Hab Hfuel. enter_rule Hn Hab.
  erewrite for_loop_logged with (x := midnode a (step_width a b n))
    (g := fun i acc => (acc + f (midnode a (step_width a b n) i))%float);
    [reflexivity | reflexivity | now apply indices_from_0].
Qed.

Lemma fold_left_shifted (h : float -> Z -> float) (d : Z) (l : list Z) :
  forall sum,
    fold_left h (map (fun i => i + d) l) sum =
    fold_left (fun acc i => h acc (i + d)) l sum.
Proof. induction l as [|i l IH]; intros sum; simpl; [reflexivity | apply IH]. Qed.

Lemma right_endpoint_valid (f : MathFunction) (a b : float) (n : Z)
    (fuel : nat) (w : World) :
  0 < n < LLONG_MAX -> (b <=? a)%float = false -> (Z.to_nat n < fuel)%nat ->
  rectangle_right_endpoint fuel (request f a b n) w =
  Done (right_rectangle_value f a b n)
       (log_evals (right_rectangle_points a b n) w).
Proof.
  intros Hn Hab Hfuel. enter_rule Hn Hab.
  erewrite for_loop_logged with (x := node a (step_width a b n))
    (g := fun i acc => (acc + f (node a (step_width a b n) i))%float);
    [ | reflexivity | now apply indices_from_1_through].
  unfold right_rectangle_value, right_rectangle_points, plain_sum.
  now rewrite fold_left_shifted, map_map.
Qed.

(** The three rectangle rules together: below the largest interval count
    each returns [dx] times the sum of its [n] evaluations. *)
Lemma rectangle_rules_valid (f : MathFunction) (a b : float) (n : Z)
    (fuel : nat) (w : World) :
  0 < n < LLONG_MAX -> (b <=? a)%float = false -> (Z.to_nat n < fuel)%nat ->
  (rectangle_left_endpoint fuel (request f a b n) w =
   Done (left_rectangle_value f a b n)
        (log_evals (left_rectangle_points a b n) w) /\
   Z.of_nat (length (left_rectangle_points a b n)) = n) /\
  (rectangle_right_endpoint fuel (request f a b n) w =
   Done (right_rectangle_value f a b n)
        (log_evals (right_rectangle_points a b n) w) /\
   Z.of_nat (length (right_rectangle_points a b n)) = n) /\
  (rectangle_midpoint fuel (request f a b n) w =
   Done (midpoint_value f a b n) (log_evals (midpoint_points a b n) w) /\
   Z.of_nat (length (midpoint_points a b n)) = n).
Proof.
  intros Hn Hab Hfuel.
  assert (Hlen : Z.of_nat (length (subintervals n)) = n)
    by (unfold subintervals; rewrite zrange_length; lia).
  unfold left_rectangle_points, right_rectangle_points, midpoint_points.
  rewrite !length_map.
  repeat split; try exact Hlen.
  - apply left_endpoint_valid; try assumption. lia.
  - now apply right_endpoint_valid.
  - apply midpoint_valid; try assumption. lia.
Qed.

Lemma trapezoidal_valid (f : MathFunction) (a b : float) (n : Z)
    (fuel : nat) (w : World) :
  0 < n <= LLONG_MAX -> (b <=? a)%float = false -> (Z.to_nat n < fuel)%nat ->
  trapezoidal_rule fuel (request f a b n) w =
  Done (trapezoidal_value f a b n) (log_evals (trapezoidal_points a b n) w).
Proof.
  intros Hn Hab Hfuel. enter_rule Hn Hab.
  erewrite for_loop_logged with (x := node a (step_width a b n))
    (g := fun i acc => (acc + f (node a (step_width a b n) i))%float);
    [ | reflexivity | now apply indices_from_1].
  now rewrite !log_evals_app.
Qed.

Lemma simpsons_1_3_valid (f : MathFunction) (a b : float) (n : Z)
    (fuel : nat) (w : World) :
  0 < n <= LLONG_MAX -> (b <=? a)%float = false -> Z.rem n 2 = 0 ->
  (Z.to_nat n < fuel)%nat ->
  simpsons_1_3_rule fuel (request f a b n) w =
  Done (simpson_1_3_value f a b n) (log_evals (simpson_1_3_points a b n) w).
Proof.
  intros Hn Hab Hr Hfuel. enter_rule Hn Hab. rewrite Hr; simpl.
  erewrite for_loop_logged with (x := node a (step_width a b n))
    (g := fun i acc => (acc + 4 * f (node a (step_width a b n) i))%float);
    [ | reflexivity | now apply indices_odd].
  erewrite for_loop_logged with (x := node a (step_width a b n))
    (g := fun i acc => (acc + 2 * f (node a (step_width a b n) i))%float);
    [ | reflexivity | now apply indices_even].
  now rewrite !log_evals_app.
Qed.

Lemma simpsons_1_3_odd (f : MathFunction) (a b : float) (n : Z)
    (fuel : nat) (w : World) :
  0 < n -> (b <=? a)%float = false -> Z.rem n 2 <> 0 ->
  simpsons_1_3_rule fuel (request f a b n) w = Done nan w.
Proof.
  intros Hn Hab Hr. enter_rule Hn Hab.
  destruct (Z.eqb_spec (Z.rem n 2) 0); [contradiction | reflexivity].
Qed.

Lemma simpsons_3_8_valid (f : MathFunction) (a b : float) (n : Z)
    (fuel : nat) (w : World) :
  0 < n <= LLONG_MAX -> (b <=? a)%float = false -> Z.rem n 3 = 0 ->
  (Z.to_nat n < fuel)%nat ->
  simpsons_3_8_rule fuel (request f a b n) w =
  Done (simpson_3_8_value f a b n) (log_evals (simpson_3_8_points a b n) w).
Proof.
  intros Hn Hab Hr Hfuel. enter_rule Hn Hab. rewrite Hr; simpl.
  erewrite for_loop_logged with (x := node a (step_width a b n))
    (g := fun i acc =>
            (acc + weight_3_8 i * f (node a (step_width a b n) i))%float);
    [ | | now apply indices_from_1].
  - now rewrite !log_evals_app.
  - intros j acc w'. unfold weight_3_8. now destruct (Z.rem j 3 =? 0).
Qed.

Lemma simpsons_3_8_indivisible (f : MathFunction) (a b : float) (n : Z)
    (fuel : nat) (w : World) :
  0 < n -> (b <=? a)%float = false -> Z.rem n 3 <> 0 ->
  simpsons_3_8_rule fuel (request f a b n) w = Done nan w.
Proof.
  intros Hn Hab Hr. enter_rule Hn Hab.
  destruct (Z.eqb_spec (Z.rem n 3) 0); [contradiction | reflexivity].
Qed.

Lemma foldM_random (RAND_MAX : Z) (f : MathFunction) (a b : float) :
  forall (l : list Z) (sum : float) (w : World),
    foldM (fun _ acc =>
             r <- rand ;;
             y <- call (Some f)
                    (a + (ll_to_double r / ll_to_double RAND_MAX) * (b - a))%float ;;
             ret (acc + y)%float) l sum w =
    Done (fold_left (fun acc x => (acc + f x)%float)
            (map (draw RAND_MAX a b) (rand_draws w (length l))) sum)
         (log_evals (map (draw RAND_MAX a b) (rand_draws w (length l)))
            (skip_rand (length l) w)).
Proof.
  induction l as [|i l IH]; intros sum w.
  - simpl. unfold ret, log_evals, skip_rand; simpl. destruct w; simpl.
    now rewrite app_nil_r, Nat.add_0_r.
  - set (body := fun (_ : Z) (acc : float) => _) in *.
    cbn [foldM]. unfold bind at 1.
    change (body i sum w) with
      (Done (sum + f (draw RAND_MAX a b (rand_src w (rand_next w))))%float
            (log_evals [draw RAND_MAX a b (rand_src w (rand_next w))]
               (skip_rand 1 w))).
    cbv beta iota. rewrite IH.
    unfold rand_draws, log_evals, skip_rand;
      cbn [rand_src rand_next evals length seq map fold_left].
    rewrite Nat.add_1_r, <- app_assoc, Nat.add_succ_r. reflexivity.
Qed.

Lemma monte_carlo_valid (RAND_MAX : Z) (f : MathFunction) (a b : float) (n : Z)
    (fuel : nat) (w : World) :
  0 < n <= LLONG_MAX -> (b <=? a)%float = false -> (Z.to_nat n < fuel)%nat ->
  monte_carlo_integration RAND_MAX fuel (request f a b n) w =
  Done (monte_carlo_value RAND_MAX f a b n w)
       (log_evals (monte_carlo_samples RAND_MAX a b n w)
          (skip_rand (Z.to_nat n) w)).
Proof.
  intros Hn Hab Hfuel. unfold monte_carlo_integration.
  rewrite valid_not_invalid by (assumption || apply Hn).
  unfold request, bind at 1, deref, ret at 1.
  cbn [lower_bound upper_bound num_intervals func].
  unfold bind at 1.
  rewrite (for_loop_foldM _ _ _ _ _ _ _ _ (indices_from_0 n fuel Hn Hfuel)).
  rewrite foldM_random. unfold subintervals. rewrite zrange_length.
  reflexivity.
Qed.

(** ** Results that do not depend on the world *)

Lemma oblivious_ret {A} (a : A) : oblivious (ret a).
Proof. intros w1 w2. reflexivity. Qed.

Lemma oblivious_out_of_fuel {A} : oblivious (@out_of_fuel A).
Proof. intros w1 w2. exact I. Qed.

Lemma oblivious_bind {A B} (m : M A) (k : A -> M B) :
  oblivious m -> (forall a, oblivious (k a)) -> oblivious (bind m k).
Proof.
  intros Hm Hk w1 w2. unfold bind. specialize (Hm w1 w2).
  destruct (m w1) as [a1 w1'| |], (m w2) as [a2 w2'| |];
    simpl in Hm; try contradiction; try exact I.
  subst a2. apply Hk.
Qed.

Lemma oblivious_call (f : option MathFunction) (x : float) :
  oblivious (call f x).
Proof. destruct f; intros w1 w2; simpl; auto. Qed.

Lemma oblivious_deref (params : option IntegrationParams) :
  oblivious (deref params).
Proof. destruct params; intros w1 w2; simpl; auto. Qed.

Lemma oblivious_for_loop (cond : Z -> bool) (step : Z -> Z)
    (body : Z -> float -> M float) :
  (forall i sum, oblivious (body i sum)) ->
  forall fuel i sum, oblivious (for_loop fuel cond step body i sum).
Proof.
  intros Hbody. induction fuel as [|fuel IH]; intros i sum; simpl.
  - apply oblivious_out_of_fuel.
  - destruct (cond i); [|apply oblivious_ret].
    apply oblivious_bind; [apply Hbody | intros; apply IH].
Qed.

Ltac oblivious_step :=
  first
    [ apply oblivious_ret
    | apply oblivious_call
    | apply oblivious_deref
    | apply oblivious_bind; [|intros ?]
    | apply oblivious_for_loop; intros ? ?
    | match goal with
      | |- oblivious (if ?c then _ else _) => destruct c
      end ].

Lemma deterministic_rules_oblivious
    (rule : nat -> option IntegrationParams -> M float)
    (fuel : nat) (params : option IntegrationParams) :
  In rule deterministic_rules -> oblivious (rule fuel params).
Proof.
  intros Hin. unfold deterministic_rules in Hin. simpl in Hin.
  repeat (destruct Hin as [<- | Hin]); try contradiction;
    unfold_rules; repeat (cbv zeta; oblivious_step).
Qed.

(** ** Results that do not depend on the step budget *)

Lemma fuel_monotone_const {A} (m : M A) : fuel_monotone (fun _ => m).
Proof. intros fuel fuel' w a w' _ H. exact H. Qed.

Lemma fuel_monotone_bind {A B} (m : nat -> M A) (k : nat -> A -> M B) :
  fuel_monotone m -> (forall a, fuel_monotone (fun fuel => k fuel a)) ->
  fuel_monotone (fun fuel => bind (m fuel) (k fuel)).
Proof.
  intros Hm Hk fuel fuel' w b w' Hle. unfold bind.
  destruct (m fuel w) as [a w1| |] eqn:E; try discriminate.
  rewrite (Hm fuel fuel' w a w1 Hle E). apply (Hk a), Hle.
Qed.

Lemma fuel_monotone_for_loop (cond : Z -> bool) (step : Z -> Z)
    (body : Z -> float -> M float) (i : Z) (sum : float) :
  fuel_monotone (fun fuel => for_loop fuel cond step body i sum).
Proof.
  intros fuel. revert i sum.
  induction fuel as [|fuel IH]; intros i sum fuel' w r w' Hle; simpl;
    [discriminate|].
  destruct fuel' as [|fuel']; [lia|]. simpl.
  destruct (cond i); [|auto]. unfold bind.
  destruct (body i sum w); try discriminate.
  apply IH. lia.
Qed.

Ltac fuel_monotone_step :=
  first
    [ apply fuel_monotone_const
    | apply fuel_monotone_for_loop
    | apply (fuel_monotone_bind (fun _ => _) (fun _ _ => _)); [|intros ?]
    | apply (fuel_monotone_bind (fun fuel => for_loop fuel _ _ _ _ _)
               (fun _ _ => _)); [|intros ?]
    | match goal with
      | |- fuel_monotone (fun _ => if ?c then _ else _) => destruct c
      end ].

Lemma deterministic_rules_fuel_monotone
    (rule : nat -> option IntegrationParams -> M float)
    (params : option IntegrationParams) :
  In rule deterministic_rules -> fuel_monotone (fun fuel => rule fuel params).
Proof.
  intros Hin. unfold deterministic_rules in Hin. simpl in Hin.
  repeat (destruct Hin as [<- | Hin]); try contradiction;
    unfold_rules; repeat (cbv zeta; fuel_monotone_step).
Qed.

Lemma deterministic_rules_agree
    (rule : nat -> option IntegrationParams -> M float)
    (params : option IntegrationParams) (fuel1 fuel2 : nat)
    (w1 w2 w1' w2' : World) (r1 r2 : float) :
  In rule deterministic_rules ->
  rule fuel1 params w1 = Done r1 w1' ->
  rule fuel2 params w2 = Done r2 w2' ->
  r1 = r2.
Proof.
  intros Hin H1 H2.
  pose proof (deterministic_rules_fuel_monotone rule params Hin) as Hmono.
  apply (Hmono fuel1 (Nat.max fuel1 fuel2)) in H1; [|lia].
  apply (Hmono fuel2 (Nat.max fuel1 fuel2)) in H2; [|lia].
  pose proof (deterministic_rules_oblivious rule (Nat.max fuel1 fuel2) params
                Hin w1 w2) as Hsame.
  rewrite H1, H2 in Hsame. exact Hsame.
Qed.

(** ** Sample runs *)

(** [x^2] over [0, 1] with 100 intervals: the left rectangle sum is
    [0.32835] up to rounding, and Simpson's 1/3 rule is within [2^-34]
    (less than [1e-10]) of [1/3]. *)
Example left_endpoint_quadratic_100 :
  (abs (returned (rectangle_left_endpoint 101 (request f_quadratic 0 1 100)
                    (rand_const 0)) - 32835 / 100000) <? 0x1p-50)%float
  = true.
Proof. vm_compute. reflexivity. Qed.

Example simpsons_1_3_quadratic_100 :
  (abs (returned (simpsons_1_3_rule 101 (request f_quadratic 0 1 100)
                    (rand_const 0)) - 1 / 3) <? 0x1p-34)%float = true.
Proof. vm_compute. reflexivity. Qed.

(** The calls Simpson's 1/3 rule makes with six intervals: the endpoints,
    then the nodes 1, 3, 5, then the nodes 2, 4. *)
Example simpsons_1_3_calls_6 :
  simpson_1_3_points 0 1 6 =
  map (fun i => node 0 (step_width 0 1 6) i) [0; 6; 1; 3; 5; 2; 4].
Proof. vm_compute. reflexivity. Qed.

(** The conversion of the extreme [long long] values. *)
Example ll_to_double_extremes :
  ll_to_double LLONG_MAX = 0x1p63%float /\
  ll_to_double LLONG_MIN = (- 0x1p63)%float /\
  ll_wrap (LLONG_MAX + 1) = LLONG_MIN.
Proof. vm_compute. repeat split. Qed.

(** * The claims of the specification *)

(** C1.  Each of the seven rules, given a malformed request (the function is
    absent, [intervals <= 0], or [upper <= lower]), returns NaN and leaves the
    world exactly as it found it: the log of integrand calls has not grown,
    so the function was not called even once, and no random number was
    taken.  No step budget is needed. *)
Theorem invalid_request_returns_nan (RAND_MAX : Z)
    (rule : nat -> option IntegrationParams -> M float)
    (fuel : nat) (p : IntegrationParams) (w : World) :
  In rule (all_rules RAND_MAX) ->
  invalid_request p ->
  rule fuel (Some p) w = Done nan w.
Proof.
  intros Hin Hinv. apply (rejected_returns_nan RAND_MAX); [assumption|].
  apply invalid_request_is_invalid, Hinv.
Qed.

Lemma invalid_request_returns_nan_witness :
  monte_carlo_integration 32767 0 (Some (mkParams (Some f_quadratic) 1 0 4))
    (rand_const 7) = Done nan (rand_const 7).
Proof.
  apply (invalid_request_returns_nan 32767).
  - simpl. tauto.
  - right; right. reflexivity.
Defined.

(** C2 (as amended).  On a request that passes the shared check, Simpson's
    1/3 rule returns NaN without calling the function when [intervals] is
    odd, and for an even [intervals] it calls the function and returns the
    computed [sum * dx / 3]; so it returns NaN if and only if [intervals] is
    odd or that computed value is itself NaN.  Likewise Simpson's 3/8 rule
    returns NaN without calling the function when [intervals] is not a
    multiple of 3, and otherwise calls the function and returns the computed
    [sum * dx * 3 / 8]; it returns NaN if and only if [intervals] is not a
    multiple of 3 or that computed value is itself NaN. *)
Theorem simpson_rules_divisibility_gate (f : MathFunction) (a b : float)
    (n : Z) :
  0 < n <= LLONG_MAX -> (b <=? a)%float = false ->
  (Z.odd n = true ->
   forall fuel w, simpsons_1_3_rule fuel (request f a b n) w = Done nan w) /\
  (Z.even n = true ->
   forall fuel w, (Z.to_nat n < fuel)%nat ->
     simpsons_1_3_rule fuel (request f a b n) w =
     Done (simpson_1_3_value f a b n)
          (log_evals (simpson_1_3_points a b n) w)) /\
  (forall fuel w, (Z.to_nat n < fuel)%nat ->
     returns_nan (simpsons_1_3_rule fuel (request f a b n) w) <->
     Z.odd n = true \/ is_nan (simpson_1_3_value f a b n) = true) /\
  (n mod 3 <> 0 ->
   forall fuel w, simpsons_3_8_rule fuel (request f a b n) w = Done nan w) /\
  (n mod 3 = 0 ->
   forall fuel w, (Z.to_nat n < fuel)%nat ->
     simpsons_3_8_rule fuel (request f a b n) w =
     Done (simpson_3_8_value f a b n)
          (log_evals (simpson_3_8_points a b n) w)) /\
  (forall fuel w, (Z.to_nat n < fuel)%nat ->
     returns_nan (simpsons_3_8_rule fuel (request f a b n) w) <->
     n mod 3 <> 0 \/ is_nan (simpson_3_8_value f a b n) = true).
Proof.
  intros Hn Hab.
  assert (Hpos : 0 < n) by lia.
  assert (H13odd : Z.odd n = true ->
            forall fuel w,
              simpsons_1_3_rule fuel (request f a b n) w = Done nan w).
  { intros Hodd fuel w. apply simpsons_1_3_odd; try assumption.
    now apply rem2_odd. }
  assert (H13even : Z.even n = true ->
            forall fuel w, (Z.to_nat n < fuel)%nat ->
              simpsons_1_3_rule fuel (request f a b n) w =
              Done (simpson_1_3_value f a b n)
                   (log_evals (simpson_1_3_points a b n) w)).
  { intros Heven fuel w Hfuel. apply simpsons_1_3_valid; try assumption.
    now apply rem2_even. }
  assert (H38no : n mod 3 <> 0 ->
            forall fuel w,
              simpsons_3_8_rule fuel (request f a b n) w = Done nan w).
  { intros Hmod fuel w. apply simpsons_3_8_indivisible; try assumption.
    rewrite Z.rem_mod_nonneg by lia. assumption. }
  assert (H38yes : n mod 3 = 0 ->
            forall fuel w, (Z.to_nat n < fuel)%nat ->
              simpsons_3_8_rule fuel (request f a b n) w =
              Done (simpson_3_8_value f a b n)
                   (log_evals (simpson_3_8_points a b n) w)).
  { intros Hmod fuel w Hfuel. apply simpsons_3_8_valid; try assumption.
    rewrite Z.rem_mod_nonneg by lia. assumption. }
  split; [exact H13odd|]. split; [exact H13even|]. split; [|split; [exact H38no|]].
  - intros fuel w Hfuel. destruct (Z.odd n) eqn:Hodd.
    + rewrite H13odd by reflexivity. simpl. intuition.
    + assert (Heven : Z.even n = true)
        by (rewrite <- Z.negb_odd, Hodd; reflexivity).
      rewrite (H13even Heven fuel w Hfuel). simpl. intuition discriminate.
  - split; [exact H38yes|].
    intros fuel w Hfuel. destruct (Z.eq_dec (n mod 3) 0) as [Hmod | Hmod].
    + rewrite (H38yes Hmod fuel w Hfuel). simpl. intuition.
    + rewrite (H38no Hmod fuel w). simpl. intuition.
Qed.

Lemma simpson_rules_divisibility_gate_witness :
  (simpsons_1_3_rule 0 (request f_quadratic 0 1 5) (rand_const 0) =
   Done nan (rand_const 0) /\
   simpsons_3_8_rule 0 (request f_quadratic 0 1 5) (rand_const 0) =
   Done nan (rand_const 0)) /\
  (simpsons_1_3_rule 7 (request f_quadratic 0 1 6) (rand_const 0) =
   Done (simpson_1_3_value f_quadratic 0 1 6)
        (log_evals (simpson_1_3_points 0 1 6) (rand_const 0)) /\
   simpsons_3_8_rule 7 (request f_quadratic 0 1 6) (rand_const 0) =
   Done (simpson_3_8_value f_quadratic 0 1 6)
        (log_evals (simpson_3_8_points 0 1 6) (rand_const 0))).
Proof.
  split.
  - destruct (simpson_rules_divisibility_gate f_quadratic 0 1 5)
      as (H13 & _ & _ & H38 & _); [unfold LLONG_MAX; lia | reflexivity |].
    split; [apply H13; reflexivity | apply H38; discriminate].
  - destruct (simpson_rules_divisibility_gate f_quadratic 0 1 6)
      as (_ & H13 & _ & _ & H38 & _); [unfold LLONG_MAX; lia | reflexivity |].
    split; [apply H13 | apply H38]; first [reflexivity | simpl; lia].
Defined.

(** C2, as stated, fails: a request that passes the shared check, with an
    even interval count (respectively one divisible by 3) and an integrand
    that is finite on the whole interval, on which Simpson's 1/3 rule
    (respectively the 3/8 rule) returns NaN, because the running sum
    overflows to [+infinity] and then meets [-infinity]. *)
Lemma simpson_rules_nan_despite_divisibility :
  (is_invalid (request f_steep 0 1 4) = false /\ Z.odd 4 = false /\
   returns_nan (simpsons_1_3_rule 5 (request f_steep 0 1 4) (rand_const 0))) /\
  (is_invalid (request f_steep 0 1 6) = false /\ 6 mod 3 = 0 /\
   returns_nan (simpsons_3_8_rule 7 (request f_steep 0 1 6) (rand_const 0))).
Proof. vm_compute. repeat split. Qed.

(** C3.  On a request that passes the shared check with an even [n],
    Simpson's 1/3 rule returns [sum * dx / 3], where [dx = (upper - lower) / n]
    and [sum] starts from [f(lower) + f(upper)], then adds [4 * f(lower + i * dx)]
    for the odd indices [i = 1, 3, ..., n-1], then [2 * f(lower + i * dx)] for
    the even indices [i = 2, 4, ..., n-2].  The two index lists are exactly
    the odd and the even numbers of [1 .. n-1]; together they hold every
    interior index once. *)
Theorem simpsons_1_3_rule_weighted_sum (f : MathFunction) (a b : float)
    (n : Z) (fuel : nat) (w : World) :
  0 < n <= LLONG_MAX -> (b <=? a)%float = false -> Z.even n = true ->
  (Z.to_nat n < fuel)%nat ->
  simpsons_1_3_rule fuel (request f a b n) w =
  Done (simpson_1_3_value f a b n) (log_evals (simpson_1_3_points a b n) w) /\
  (forall i, In i (odd_interior n) <-> 1 <= i <= n - 1 /\ Z.odd i = true) /\
  (forall i, In i (even_interior n) <-> 2 <= i <= n - 2 /\ Z.even i = true) /\
  NoDup (odd_interior n ++ even_interior n) /\
  (forall i, In i (odd_interior n ++ even_interior n) <-> 1 <= i <= n - 1).
Proof.
  intros Hn Hab Heven Hfuel.
  assert (Hr : Z.rem n 2 = 0) by (apply rem2_even; [lia | assumption]).
  assert (Hpos : 0 < n) by lia.
  split; [|split; [|split; [|split]]].
  - now apply simpsons_1_3_valid.
  - intros i. now apply odd_interior_In.
  - intros i. now apply even_interior_In.
  - now apply simpson_interior_NoDup.
  - intros i. now apply simpson_interior_complete.
Qed.

Lemma simpsons_1_3_rule_weighted_sum_witness :
  simpsons_1_3_rule 101 (request f_quadratic 0 1 100) (rand_const 0) =
  Done (simpson_1_3_value f_quadratic 0 1 100)
       (log_evals (simpson_1_3_points 0 1 100) (rand_const 0)) /\
  NoDup (odd_interior 100 ++ even_interior 100).
Proof.
  destruct (simpsons_1_3_rule_weighted_sum f_quadratic 0 1 100 101
              (rand_const 0)) as (Hrun & _ & _ & Hnodup & _).
  - unfold LLONG_MAX; lia.
  - reflexivity.
  - reflexivity.
  - simpl; lia.
  - split; assumption.
Defined.

(** C4 (as amended).  For every even positive [n], the weights Simpson's 1/3
    rule applies (1 for each of the two endpoints, 4 for each index of its
    first loop, 2 for each index of its second loop) add up to [3 * n]: the
    division by 3 that ends the rule brings the total back to [n]. *)
Theorem simpson_1_3_weights_total (n : Z) (fuel : nat) :
  0 < n <= LLONG_MAX -> Z.even n = true -> (Z.to_nat n < fuel)%nat ->
  exists ws, simpson_1_3_weights fuel n = Some ws /\ total ws = 3 * n.
Proof.
  intros Hn Heven Hfuel.
  assert (Hr : Z.rem n 2 = 0) by (apply rem2_even; [lia | assumption]).
  unfold simpson_1_3_weights.
  rewrite indices_odd, indices_even by assumption.
  eexists; split; [reflexivity|].
  destruct (even_half n) as [Hk Hpos]; [lia | assumption |].
  rewrite !total_app, !total_constant.
  unfold odd_interior, even_interior. rewrite !zrange_length.
  simpl total. lia.
Qed.

Lemma simpson_1_3_weights_total_witness :
  exists ws, simpson_1_3_weights 7 6 = Some ws /\ total ws = 3 * 6.
Proof.
  apply simpson_1_3_weights_total;
    [unfold LLONG_MAX; lia | reflexivity | simpl; lia].
Defined.

(** C4, as stated, fails: with two intervals the rule applies the weights
    1, 1 and 4, which add up to 6 and not to 2. *)
Lemma simpson_1_3_weights_total_is_not_n :
  simpson_1_3_weights 3 2 = Some [1; 1; 4] /\ total [1; 1; 4] <> 2.
Proof. split; [reflexivity | discriminate]. Qed.

(** C5, at the largest interval count.  With [intervals = LLONG_MAX] the
    right rectangle rule does not return: its loop runs while [i <= n], which
    no [long long] falsifies, so whatever the step budget the call is still
    looping when it runs out. *)
Theorem right_endpoint_llong_max_never_returns (f : MathFunction)
    (a b : float) (fuel : nat) (w : World) :
  (b <=? a)%float = false ->
  rectangle_right_endpoint fuel (request f a b LLONG_MAX) w = OutOfFuel.
Proof.
  intros Hab. unfold rectangle_right_endpoint.
  rewrite valid_not_invalid by (assumption || reflexivity).
  unfold request, bind at 1, deref, ret at 1.
  cbn [lower_bound upper_bound num_intervals func].
  unfold bind at 1.
  rewrite for_loop_through_llong_max; [reflexivity | | unfold LLONG_MAX; lia].
  intros i sum w'. eexists. eexists. reflexivity.
Qed.

Lemma right_endpoint_llong_max_never_returns_witness :
  rectangle_right_endpoint 1000 (request f_quadratic 0 1 LLONG_MAX)
    (rand_const 0) = OutOfFuel.
Proof. apply right_endpoint_llong_max_never_returns. reflexivity. Defined.

(** C6.  On a request that passes the shared check, and with no further
    precondition, the trapezoidal rule returns [dx] times the total of the
    two endpoint values weighted by 0.5, [0.5 * (f(lower) + f(upper))], plus
    the [n - 1] interior values [f(lower + i * dx)], [i = 1 .. n-1], each
    with weight 1. *)
Theorem trapezoidal_rule_weighted_sum (f : MathFunction) (a b : float)
    (n : Z) (fuel : nat) (w : World) :
  0 < n <= LLONG_MAX -> (b <=? a)%float = false -> (Z.to_nat n < fuel)%nat ->
  trapezoidal_rule fuel (request f a b n) w =
  Done (trapezoidal_value f a b n) (log_evals (trapezoidal_points a b n) w) /\
  Z.of_nat (length (interior n)) = n - 1 /\
  (forall i, In i (interior n) <-> 1 <= i <= n - 1) /\
  NoDup (interior n).
Proof.
  intros Hn Hab Hfuel. split; [|split; [|split]].
  - now apply trapezoidal_valid.
  - unfold interior. rewrite zrange_length. lia.
  - intros i. unfold interior. rewrite zrange_In. split.
    + intros (k & Hk & ->). lia.
    + intros Hi. exists (i - 1). lia.
  - apply zrange_NoDup. lia.
Qed.

Lemma trapezoidal_rule_weighted_sum_witness :
  trapezoidal_rule 1001 (request f_quadratic 0 1 1000) (rand_const 0) =
  Done (trapezoidal_value f_quadratic 0 1 1000)
       (log_evals (trapezoidal_points 0 1 1000) (rand_const 0)).
Proof.
  apply (trapezoidal_rule_weighted_sum f_quadratic 0 1 1000 1001 (rand_const 0));
    [unfold LLONG_MAX; lia | reflexivity | simpl; lia].
Defined.

(** C7.  On a request that passes the shared check with [n] a multiple of 3,
    Simpson's 3/8 rule returns [sum * dx * 3 / 8], where
    [dx = (upper - lower) / n] and [sum] starts from [f(lower) + f(upper)] and
    adds, for each interior index [i] from 1 to [n-1] in turn,
    [f(lower + i * dx)] with weight 2 when [i] is a multiple of 3 and with
    weight 3 otherwise. *)
Theorem simpsons_3_8_rule_weighted_sum (f : MathFunction) (a b : float)
    (n : Z) (fuel : nat) (w : World) :
  0 < n <= LLONG_MAX -> (b <=? a)%float = false -> n mod 3 = 0 ->
  (Z.to_nat n < fuel)%nat ->
  simpsons_3_8_rule fuel (request f a b n) w =
  Done (simpson_3_8_value f a b n) (log_evals (simpson_3_8_points a b n) w) /\
  (forall i, In i (interior n) <-> 1 <= i <= n - 1) /\
  NoDup (interior n) /\
  (forall i, 1 <= i ->
     (i mod 3 = 0 -> weight_3_8 i = 2%float) /\
     (i mod 3 <> 0 -> weight_3_8 i = 3%float)).
Proof.
  intros Hn Hab Hmod Hfuel. split; [|split; [|split]].
  - apply simpsons_3_8_valid; try assumption.
    rewrite Z.rem_mod_nonneg by lia. assumption.
  - intros i. unfold interior. rewrite zrange_In. split.
    + intros (k & Hk & ->). lia.
    + intros Hi. exists (i - 1). lia.
  - apply zrange_NoDup. lia.
  - intros i Hi. unfold weight_3_8. rewrite Z.rem_mod_nonneg by lia.
    destruct (Z.eqb_spec (i mod 3) 0); split; intros; congruence.
Qed.

Lemma simpsons_3_8_rule_weighted_sum_witness :
  simpsons_3_8_rule 100 (request f_quadratic 0 1 99) (rand_const 0) =
  Done (simpson_3_8_value f_quadratic 0 1 99)
       (log_evals (simpson_3_8_points 0 1 99) (rand_const 0)).
Proof.
  apply (simpsons_3_8_rule_weighted_sum f_quadratic 0 1 99 100 (rand_const 0));
    [unfold LLONG_MAX; lia | reflexivity | reflexivity | simpl; lia].
Defined.

(** C8 (as amended).  On a request that passes the shared check, Monte Carlo
    integration takes the next [intervals] outputs [r] of [rand()] (integers
    of the closed range [0 .. RAND_MAX]), forms for each the sample
    [lower + (r / RAND_MAX) * (upper - lower)], calls the function at each
    sample in turn, and returns
    [(sum_of_evaluations / intervals) * (upper - lower)].  The factor
    [r / RAND_MAX] can be 1, so nothing keeps a sample strictly below
    [upper]. *)
Theorem monte_carlo_integration_mean (RAND_MAX : Z) (f : MathFunction)
    (a b : float) (n : Z) (fuel : nat) (w : World) :
  0 < n <= LLONG_MAX -> (b <=? a)%float = false ->
  (forall k, 0 <= rand_src w k <= RAND_MAX) ->
  (Z.to_nat n < fuel)%nat ->
  monte_carlo_integration RAND_MAX fuel (request f a b n) w =
  Done (monte_carlo_value RAND_MAX f a b n w)
       (log_evals (monte_carlo_samples RAND_MAX a b n w)
          (skip_rand (Z.to_nat n) w)) /\
  Z.of_nat (length (monte_carlo_samples RAND_MAX a b n w)) = n /\
  (forall x, In x (monte_carlo_samples RAND_MAX a b n w) ->
     exists r, 0 <= r <= RAND_MAX /\
       x = (a + (ll_to_double r / ll_to_double RAND_MAX) * (b - a))%float).
Proof.
  intros Hn Hab Hrand Hfuel. split; [|split].
  - now apply monte_carlo_valid.
  - unfold monte_carlo_samples, rand_draws.
    rewrite !length_map, length_seq. lia.
  - intros x Hx. unfold monte_carlo_samples, rand_draws in Hx.
    rewrite map_map in Hx. apply in_map_iff in Hx.
    destruct Hx as (k & <- & _). exists (rand_src w k). split; [apply Hrand|].
    reflexivity.
Qed.

Lemma monte_carlo_integration_mean_witness :
  monte_carlo_integration 32767 4 (request f_quadratic 0 1 3) (rand_const 16384) =
  Done (monte_carlo_value 32767 f_quadratic 0 1 3 (rand_const 16384))
       (log_evals (monte_carlo_samples 32767 0 1 3 (rand_const 16384))
          (skip_rand 3 (rand_const 16384))).
Proof.
  apply (monte_carlo_integration_mean 32767 f_quadratic 0 1 3 4
           (rand_const 16384)).
  - unfold LLONG_MAX; lia.
  - reflexivity.
  - intros k. simpl. lia.
  - simpl. lia.
Defined.

(** C8, as stated, fails: when [rand()] returns [RAND_MAX], which it may, the
    sample over [0, 1] is [1.0], the upper bound itself. *)
Lemma monte_carlo_draw_reaches_upper :
  (forall k, 0 <= rand_src (rand_const 2147483647) k <= 2147483647) /\
  monte_carlo_integration 2147483647 2 (request f_quadratic 0 1 1)
    (rand_const 2147483647) =
  Done 1%float (log_evals [1%float] (skip_rand 1 (rand_const 2147483647))) /\
  ~ draws_below 1
      (monte_carlo_integration 2147483647 2 (request f_quadratic 0 1 1)
         (rand_const 2147483647)).
Proof.
  split; [intros k; simpl; lia|]. split; [reflexivity|].
  intros H. specialize (H 1%float (or_introl eq_refl)). discriminate H.
Qed.

(** C9.  For each of the six deterministic rules, two calls on the same
    request return the same double, whatever the state of the outside world
    at either call (random generator, earlier integrand calls): under equal
    step budgets the two calls end alike, and whenever both return, under
    any budgets, they return equal values.  Monte Carlo integration is not
    so: two successive calls on one request can return different values. *)
Theorem deterministic_rules_repeatable :
  (forall rule params, In rule deterministic_rules ->
     (forall fuel w1 w2,
        same_result (rule fuel params w1) (rule fuel params w2)) /\
     (forall fuel1 fuel2 w1 w2 r1 r2 w1' w2',
        rule fuel1 params w1 = Done r1 w1' ->
        rule fuel2 params w2 = Done r2 w2' ->
        r1 = r2)) /\
  (exists RAND_MAX fuel params w r1 w1 r2 w2,
     monte_carlo_integration RAND_MAX fuel params w = Done r1 w1 /\
     monte_carlo_integration RAND_MAX fuel params w1 = Done r2 w2 /\
     r1 <> r2).
Proof.
  split.
  - intros rule params Hin. split.
    + intros fuel. now apply deterministic_rules_oblivious.
    + intros fuel1 fuel2 w1 w2 r1 r2 w1' w2'.
      now apply deterministic_rules_agree.
  - exists 32767, 2%nat, (request f_quadratic 0 1 1), rand_counter.
    do 4 eexists. split; [|split].
    + apply monte_carlo_valid; [unfold LLONG_MAX; lia | reflexivity | simpl; lia].
    + apply monte_carlo_valid; [unfold LLONG_MAX; lia | reflexivity | simpl; lia].
    + vm_compute. discriminate.
Qed.

Lemma deterministic_rules_repeatable_witness :
  same_result
    (simpsons_1_3_rule 101 (request f_quadratic 0 1 100) (rand_const 0))
    (simpsons_1_3_rule 101 (request f_quadratic 0 1 100) (rand_const 41)).
Proof.
  apply (proj1 deterministic_rules_repeatable). simpl. tauto.
Defined.

(** C10.  Each of the seven rules, given a null request pointer, returns NaN
    and leaves the world as it found it; it neither dereferences the pointer
    nor calls anything. *)
Theorem null_request_returns_nan (RAND_MAX : Z) :
  Forall (fun rule => forall fuel w, rule fuel None w = Done nan w)
         (all_rules RAND_MAX).
Proof.
  apply Forall_forall. intros rule Hin fuel w.
  now apply (rejected_returns_nan RAND_MAX).
Qed.

(** * Further properties of the rules *)

(** ** No null pointer is ever followed *)

Lemma never_undefined_ret {A} (a : A) : never_undefined (ret a).
Proof. intros w. discriminate. Qed.

Lemma never_undefined_bind {A B} (m : M A) (k : A -> M B) :
  never_undefined m -> (forall a, never_undefined (k a)) ->
  never_undefined (bind m k).
Proof.
  intros Hm Hk w. unfold bind. specialize (Hm w).
  destruct (m w) as [a w'| |]; [apply Hk | congruence | discriminate].
Qed.

Lemma never_undefined_bind_ret {A B} (a : A) (k : A -> M B) :
  never_undefined (k a) -> never_undefined (bind (ret a) k).
Proof. intros Hk w. apply Hk. Qed.

Lemma never_undefined_call (f : MathFunction) (x : float) :
  never_undefined (call (Some f) x).
Proof. intros w. discriminate. Qed.

Lemma never_undefined_rand : never_undefined rand.
Proof. intros w. discriminate. Qed.

Lemma never_undefined_for_loop (cond : Z -> bool) (step : Z -> Z)
    (body : Z -> float -> M float) :
  (forall i sum, never_undefined (body i sum)) ->
  forall fuel i sum, never_undefined (for_loop fuel cond step body i sum).
Proof.
  intros Hbody. induction fuel as [|fuel IH]; intros i sum; simpl.
  - intros w. discriminate.
  - destruct (cond i); [|apply never_undefined_ret].
    apply never_undefined_bind; [apply Hbody | intros; apply IH].
Qed.

Ltac never_undefined_step :=
  first
    [ apply never_undefined_ret
    | apply never_undefined_call
    | apply never_undefined_rand
    | apply never_undefined_bind; [|intros ?]
    | apply never_undefined_for_loop; intros ? ?
    | match goal with
      | |- never_undefined (if ?c then _ else _) => destruct c
      end ].

(** X1.  Whatever the request (null, malformed or well-formed), the step
    budget and the world, none of the seven rules dereferences a null
    request or calls a null function pointer. *)
Theorem rules_never_follow_null (RAND_MAX : Z) :
  Forall (fun rule =>
            forall fuel params w, rule fuel params w <> Undefined)
         (all_rules RAND_MAX).
Proof.
  apply Forall_forall. intros rule Hin fuel params.
  change (never_undefined (rule fuel params)).
  unfold all_rules in Hin. simpl in Hin.
  repeat (destruct Hin as [<- | Hin]); try contradiction;
    unfold_rules;
    (destruct params as [[[f|] a b n]|]; simpl;
     [ destruct ((n <=? 0) || (b <=? a)%float);
       [apply never_undefined_ret|]
     | apply never_undefined_ret
     | apply never_undefined_ret ]);
    unfold deref; apply never_undefined_bind_ret;
    repeat (cbv zeta; cbn [func lower_bound upper_bound num_intervals];
            never_undefined_step).
Qed.

(** ** The deterministic rules leave the generator alone *)

Lemma log_evals_nil (w : World) : log_evals [] w = w.
Proof. destruct w. unfold log_evals; simpl. now rewrite app_nil_r. Qed.

Lemma appends_calls_only_ret {A} (a : A) : appends_calls_only (ret a).
Proof.
  intros w a' w' [= _ <-]. exists []. symmetry. apply log_evals_nil.
Qed.

Lemma appends_calls_only_bind {A B} (m : M A) (k : A -> M B) :
  appends_calls_only m -> (forall a, appends_calls_only (k a)) ->
  appends_calls_only (bind m k).
Proof.
  intros Hm Hk w b w'. unfold bind.
  destruct (m w) as [a w1| |] eqn:E; try discriminate.
  intros Hk1. destruct (Hm w a w1 E) as [xs ->].
  destruct (Hk a _ b w' Hk1) as [ys ->].
  exists (xs ++ ys). apply log_evals_app.
Qed.

Lemma appends_calls_only_call (f : option MathFunction) (x : float) :
  appends_calls_only (call f x).
Proof.
  destruct f; intros w a w'; simpl; [|discriminate].
  intros [= _ <-]. now exists [x].
Qed.

Lemma appends_calls_only_deref (params : option IntegrationParams) :
  appends_calls_only (deref params).
Proof.
  destruct params; [apply appends_calls_only_ret | intros w a w'; discriminate].
Qed.

Lemma appends_calls_only_for_loop (cond : Z -> bool) (step : Z -> Z)
    (body : Z -> float -> M float) :
  (forall i sum, appends_calls_only (body i sum)) ->
  forall fuel i sum, appends_calls_only (for_loop fuel cond step body i sum).
Proof.
  intros Hbody. induction fuel as [|fuel IH]; intros i sum; simpl.
  - intros w a w'. discriminate.
  - destruct (cond i); [|apply appends_calls_only_ret].
    apply appends_calls_only_bind; [apply Hbody | intros; apply IH].
Qed.

Ltac appends_calls_only_step :=
  first
    [ apply appends_calls_only_ret
    | apply appends_calls_only_call
    | apply appends_calls_only_deref
    | apply appends_calls_only_bind; [|intros ?]
    | apply appends_calls_only_for_loop; intros ? ?
    | match goal with
      | |- appends_calls_only (if ?c then _ else _) => destruct c
      end ].

(** X2.  A call of one of the six deterministic rules that returns has
    taken no number from the generator behind [rand()]: the world it leaves
    is the world it found, with the integrand calls it made appended to the
    log. *)
Theorem deterministic_rules_leave_generator
    (rule : nat -> option IntegrationParams -> M float)
    (fuel : nat) (params : option IntegrationParams) (w w' : World)
    (r : float) :
  In rule deterministic_rules ->
  rule fuel params w = Done r w' ->
  exists xs, w' = log_evals xs w /\
             rand_src w' = rand_src w /\ rand_next w' = rand_next w.
Proof.
  intros Hin Hrun.
  assert (H : appends_calls_only (rule fuel params)).
  { unfold deterministic_rules in Hin. simpl in Hin.
    repeat (destruct Hin as [<- | Hin]); try contradiction;
      unfold_rules; repeat (cbv zeta; appends_calls_only_step). }
  destruct (H w r w' Hrun) as [xs ->]. exists xs. repeat split.
Qed.

Lemma deterministic_rules_leave_generator_witness :
  exists xs,
    log_evals (trapezoidal_points 0 1 4) rand_counter =
    log_evals xs rand_counter /\
    rand_src (log_evals (trapezoidal_points 0 1 4) rand_counter) =
    rand_src rand_counter /\
    rand_next (log_evals (trapezoidal_points 0 1 4) rand_counter) =
    rand_next rand_counter.
Proof.
  apply (deterministic_rules_leave_generator trapezoidal_rule 5
           (request f_quadratic 0 1 4) rand_counter _
           (trapezoidal_value f_quadratic 0 1 4)).
  - simpl. tauto.
  - apply trapezoidal_valid; [unfold LLONG_MAX; lia | reflexivity | simpl; lia].
Defined.

(** ** Every call returns *)

Lemma rule_returns (RAND_MAX : Z)
    (rule : nat -> option IntegrationParams -> M float)
    (p : IntegrationParams) (fuel : nat) (w : World) :
  In rule (all_rules RAND_MAX) ->
  num_intervals p < LLONG_MAX ->
  (Z.to_nat (num_intervals p) < fuel)%nat ->
  exists r w', rule fuel (Some p) w = Done r w'.
Proof.
  intros Hin Hmax Hfuel.
  destruct (is_invalid (Some p)) eqn:Hinv.
  { exists nan, w. now apply (rejected_returns_nan RAND_MAX). }
  destruct p as [[f|] a b n]; simpl in *; [|discriminate].
  apply orb_false_iff in Hinv. destruct Hinv as [Hn Hab].
  apply Z.leb_gt in Hn.
  change (Some (mkParams (Some f) a b n)) with (request f a b n).
  unfold all_rules in Hin. simpl in Hin.
  destruct Hin as [<- | [<- | [<- | [<- | [<- | [<- | [<- | []]]]]]]].
  - eexists. eexists. apply left_endpoint_valid; try assumption. lia.
  - eexists. eexists. apply right_endpoint_valid; try assumption. lia.
  - eexists. eexists. apply midpoint_valid; try assumption. lia.
  - eexists. eexists. apply trapezoidal_valid; try assumption. lia.
  - destruct (Z.eq_dec (Z.rem n 2) 0) as [Hr | Hr].
    + eexists. eexists. apply simpsons_1_3_valid; try assumption. lia.
    + eexists. eexists. now apply simpsons_1_3_odd.
  - destruct (Z.eq_dec (Z.rem n 3) 0) as [Hr | Hr].
    + eexists. eexists. apply simpsons_3_8_valid; try assumption. lia.
    + eexists. eexists. now apply simpsons_3_8_indivisible.
  - eexists. eexists. apply monte_carlo_valid; try assumption. lia.
Qed.

(** X3.  Below the largest interval count every rule returns on every
    request that is present, malformed or not: a step budget of more than
    [intervals] loop tests is enough. *)
Theorem rules_return (RAND_MAX : Z)
    (rule : nat -> option IntegrationParams -> M float)
    (p : IntegrationParams) (fuel : nat) (w : World) :
  In rule (all_rules RAND_MAX) ->
  num_intervals p < LLONG_MAX ->
  (Z.to_nat (num_intervals p) < fuel)%nat ->
  exists r w', rule fuel (Some p) w = Done r w'.
Proof. apply rule_returns. Qed.

Lemma rules_return_witness :
  exists r w',
    rectangle_right_endpoint 8 (Some (mkParams (Some f_quadratic) 0 1 7))
      (rand_const 0) = Done r w'.
Proof.
  apply (rules_return 32767).
  - simpl. tauto.
  - reflexivity.
  - simpl. lia.
Defined.

(** ** How often the integrand is called *)

Lemma calls_made_log (xs : list float) (w : World) (r : float) :
  calls_made w (Done r (log_evals xs w)) = Some (Z.of_nat (length xs)).
Proof.
  unfold calls_made, log_evals; simpl. rewrite length_app. f_equal. lia.
Qed.

Lemma calls_made_log_skip (xs : list float) (k : nat) (w : World) (r : float) :
  calls_made w (Done r (log_evals xs (skip_rand k w))) =
  Some (Z.of_nat (length xs)).
Proof.
  unfold calls_made, log_evals, skip_rand; simpl. rewrite length_app.
  f_equal. lia.
Qed.

Lemma subintervals_length (n : Z) :
  0 < n -> Z.of_nat (length (subintervals n)) = n.
Proof. intros Hn. unfold subintervals. rewrite zrange_length. lia. Qed.

Lemma interior_length (n : Z) :
  0 < n -> Z.of_nat (length (interior n)) = n - 1.
Proof. intros Hn. unfold interior. rewrite zrange_length. lia. Qed.

(** X4.  The cost of a call on a request that passes the shared check, in
    integrand calls: [n] for each rectangle rule and for Monte Carlo
    integration (which also takes [n] numbers from the generator), [n + 1]
    for the trapezoidal rule and for either Simpson rule past its
    divisibility test. *)
Theorem integrand_calls_per_rule (RAND_MAX : Z) (f : MathFunction)
    (a b : float) (n : Z) (fuel : nat) (w : World) :
  0 < n < LLONG_MAX -> (b <=? a)%float = false -> (Z.to_nat n < fuel)%nat ->
  calls_made w (rectangle_left_endpoint fuel (request f a b n) w) = Some n /\
  calls_made w (rectangle_right_endpoint fuel (request f a b n) w) = Some n /\
  calls_made w (rectangle_midpoint fuel (request f a b n) w) = Some n /\
  calls_made w (trapezoidal_rule fuel (request f a b n) w) = Some (n + 1) /\
  (Z.even n = true ->
   calls_made w (simpsons_1_3_rule fuel (request f a b n) w) = Some (n + 1)) /\
  (n mod 3 = 0 ->
   calls_made w (simpsons_3_8_rule fuel (request f a b n) w) = Some (n + 1)) /\
  calls_made w (monte_carlo_integration RAND_MAX fuel (request f a b n) w)
  = Some n /\
  (forall r w',
     monte_carlo_integration RAND_MAX fuel (request f a b n) w = Done r w' ->
     rand_next w' = (rand_next w + Z.to_nat n)%nat).
Proof.
  intros Hn Hab Hfuel.
  assert (Hn' : 0 < n <= LLONG_MAX) by lia.
  assert (Hpos : 0 < n) by lia.
  split; [|split; [|split; [|split; [|split; [|split; [|split]]]]]].
  - rewrite left_endpoint_valid, calls_made_log by assumption.
    unfold left_rectangle_points. rewrite length_map.
    f_equal. now apply subintervals_length.
  - rewrite right_endpoint_valid, calls_made_log by assumption.
    unfold right_rectangle_points. rewrite length_map.
    f_equal. now apply subintervals_length.
  - rewrite midpoint_valid, calls_made_log by assumption.
    unfold midpoint_points. rewrite length_map.
    f_equal. now apply subintervals_length.
  - rewrite trapezoidal_valid, calls_made_log by assumption.
    unfold trapezoidal_points. rewrite length_app, length_map.
    pose proof (interior_length n Hpos). simpl length. f_equal. lia.
  - intros Heven.
    assert (Hr : Z.rem n 2 = 0) by now apply rem2_even.
    rewrite simpsons_1_3_valid, calls_made_log by assumption.
    destruct (even_half n Hpos Hr) as [Hk Hhalf].
    unfold simpson_1_3_points, odd_interior, even_interior.
    rewrite !length_app, !length_map, !zrange_length. simpl length.
    f_equal. lia.
  - intros Hmod.
    assert (Hr : Z.rem n 3 = 0) by (rewrite Z.rem_mod_nonneg by lia; exact Hmod).
    rewrite simpsons_3_8_valid, calls_made_log by assumption.
    unfold simpson_3_8_points. rewrite length_app, length_map.
    pose proof (interior_length n Hpos). simpl length. f_equal. lia.
  - rewrite monte_carlo_valid, calls_made_log_skip by assumption.
    unfold monte_carlo_samples, rand_draws. rewrite !length_map, length_seq.
    f_equal. lia.
  - intros r w'. rewrite monte_carlo_valid by assumption.
    intros [= _ <-]. reflexivity.
Qed.

Lemma integrand_calls_per_rule_witness :
  calls_made (rand_const 0)
    (trapezoidal_rule 7 (request f_quadratic 0 1 6) (rand_const 0)) = Some 7 /\
  calls_made (rand_const 0)
    (simpsons_1_3_rule 7 (request f_quadratic 0 1 6) (rand_const 0)) = Some 7 /\
  calls_made (rand_const 0)
    (simpsons_3_8_rule 7 (request f_quadratic 0 1 6) (rand_const 0)) = Some 7 /\
  calls_made (rand_const 0)
    (monte_carlo_integration 32767 7 (request f_quadratic 0 1 6) (rand_const 0))
  = Some 6.
Proof.
  destruct (integrand_calls_per_rule 32767 f_quadratic 0 1 6 7 (rand_const 0))
    as (_ & _ & _ & Ht & H13 & H38 & Hmc & _);
    [unfold LLONG_MAX; lia | reflexivity | simpl; lia |].
  split; [exact Ht|]. split; [apply H13; reflexivity|].
  split; [apply H38; reflexivity | exact Hmc].
Defined.

(** ** Bounds that are not numbers *)

Lemma Prim2SF_nan : Prim2SF nan = S754_nan.
Proof. reflexivity. Qed.

Lemma is_nan_eq (x : float) : is_nan x = true -> x = nan.
Proof.
  unfold is_nan. rewrite FloatAxioms.eqb_spec. intros H.
  rewrite <- (SF2Prim_Prim2SF x).
  destruct (Prim2SF x) as [s|s| |s m e]; try reflexivity; simpl in H.
  all: try (destruct s; discriminate).
  unfold SFeqb, SFcompare in H.
  destruct s; rewrite ?Z.compare_refl, ?Pos.compare_refl in H; discriminate.
Qed.

Lemma sub_nan_l (x : float) : (nan - x)%float = nan.
Proof.
  rewrite <- (SF2Prim_Prim2SF (nan - x)), FloatAxioms.sub_spec, Prim2SF_nan.
  reflexivity.
Qed.

Lemma sub_nan_r (x : float) : (x - nan)%float = nan.
Proof.
  rewrite <- (SF2Prim_Prim2SF (x - nan)), FloatAxioms.sub_spec, Prim2SF_nan.
  destruct (Prim2SF x); reflexivity.
Qed.

Lemma mul_nan_l (x : float) : (nan * x)%float = nan.
Proof.
  rewrite <- (SF2Prim_Prim2SF (nan * x)), FloatAxioms.mul_spec, Prim2SF_nan.
  reflexivity.
Qed.

Lemma mul_nan_r (x : float) : (x * nan)%float = nan.
Proof.
  rewrite <- (SF2Prim_Prim2SF (x * nan)), FloatAxioms.mul_spec, Prim2SF_nan.
  destruct (Prim2SF x); reflexivity.
Qed.

Lemma div_nan_l (x : float) : (nan / x)%float = nan.
Proof.
  rewrite <- (SF2Prim_Prim2SF (nan / x)), FloatAxioms.div_spec, Prim2SF_nan.
  reflexivity.
Qed.

Lemma add_nan_r (x : float) : (x + nan)%float = nan.
Proof.
  rewrite <- (SF2Prim_Prim2SF (x + nan)), FloatAxioms.add_spec, Prim2SF_nan.
  destruct (Prim2SF x); reflexivity.
Qed.

Lemma leb_nan_l (x : float) : (nan <=? x)%float = false.
Proof. rewrite FloatAxioms.leb_spec, Prim2SF_nan. reflexivity. Qed.

Lemma leb_nan_r (x : float) : (x <=? nan)%float = false.
Proof.
  rewrite FloatAxioms.leb_spec, Prim2SF_nan. destruct (Prim2SF x); reflexivity.
Qed.

Lemma nan_bound_width (a b : float) (n : Z) :
  is_nan a = true \/ is_nan b = true -> step_width a b n = nan /\ (b - a)%float = nan.
Proof.
  unfold step_width.
  intros [H | H]; apply is_nan_eq in H; subst;
    rewrite ?sub_nan_r, ?sub_nan_l, ?div_nan_l; split; reflexivity.
Qed.

Lemma nodes_of_nan_width (a : float) (s : Z) (len : nat) :
  forall lo, map (fun i => node a nan i) (zrange lo s len) = repeat nan len.
Proof.
  induction len as [|len IH]; intros lo; simpl; [reflexivity|].
  unfold node at 1. rewrite mul_nan_r, add_nan_r. f_equal. apply IH.
Qed.

(** X5.  A request whose lower or upper bound is NaN passes the shared check
    (the comparison [upper <= lower] is false on NaN).  The left rectangle
    rule then calls the function [intervals] times, each time at NaN, and
    every rule returns NaN. *)
Theorem nan_bound_is_not_rejected (RAND_MAX : Z) (f : MathFunction)
    (a b : float) (n : Z) (fuel : nat) (w : World) :
  0 < n < LLONG_MAX -> is_nan a = true \/ is_nan b = true ->
  (Z.to_nat n < fuel)%nat ->
  is_invalid (request f a b n) = false /\
  rectangle_left_endpoint fuel (request f a b n) w =
  Done nan (log_evals (repeat nan (Z.to_nat n)) w) /\
  (forall rule, In rule (all_rules RAND_MAX) ->
                returns_nan (rule fuel (request f a b n) w)).
Proof.
  intros Hn Hnan Hfuel.
  assert (Hab : (b <=? a)%float = false).
  { destruct Hnan as [H | H]; apply is_nan_eq in H; subst;
      [apply leb_nan_r | apply leb_nan_l]. }
  destruct (nan_bound_width a b n Hnan) as [Hdx Hrange].
  assert (Hn' : 0 < n <= LLONG_MAX) by lia.
  assert (Hpos : 0 < n) by lia.
  split; [now apply valid_not_invalid|]. split.
  - rewrite left_endpoint_valid by assumption.
    unfold left_rectangle_value, left_rectangle_points, subintervals.
    rewrite Hdx, mul_nan_r, nodes_of_nan_width. reflexivity.
  - intros rule Hin. unfold all_rules in Hin. simpl in Hin.
    destruct Hin as [<- | [<- | [<- | [<- | [<- | [<- | [<- | []]]]]]]].
    + rewrite left_endpoint_valid by assumption.
      unfold left_rectangle_value. now rewrite Hdx, mul_nan_r.
    + rewrite right_endpoint_valid by assumption.
      unfold right_rectangle_value. now rewrite Hdx, mul_nan_r.
    + rewrite midpoint_valid by assumption.
      unfold midpoint_value. now rewrite Hdx, mul_nan_r.
    + rewrite trapezoidal_valid by assumption.
      unfold trapezoidal_value. now rewrite Hdx, mul_nan_r.
    + destruct (Z.eq_dec (Z.rem n 2) 0) as [Hr | Hr].
      * rewrite simpsons_1_3_valid by assumption.
        unfold simpson_1_3_value. now rewrite Hdx, mul_nan_r, div_nan_l.
      * now rewrite simpsons_1_3_odd by assumption.
    + destruct (Z.eq_dec (Z.rem n 3) 0) as [Hr | Hr].
      * rewrite simpsons_3_8_valid by assumption.
        unfold simpson_3_8_value.
        now rewrite Hdx, mul_nan_r, mul_nan_l, div_nan_l.
      * now rewrite simpsons_3_8_indivisible by assumption.
    + rewrite monte_carlo_valid by assumption.
      unfold monte_carlo_value. now rewrite Hrange, mul_nan_r.
Qed.

Lemma nan_bound_is_not_rejected_witness :
  is_invalid (request f_quadratic nan 1 3) = false /\
  rectangle_left_endpoint 4 (request f_quadratic nan 1 3) (rand_const 0) =
  Done nan (log_evals (repeat nan (Z.to_nat 3)) (rand_const 0)) /\
  (forall rule, In rule (all_rules 32767) ->
                returns_nan (rule 4%nat (request f_quadratic nan 1 3) (rand_const 0))).
Proof.
  apply nan_bound_is_not_rejected;
    [unfold LLONG_MAX; lia | left; reflexivity | simpl; lia].
Defined.

(** ** Monte Carlo integration and the generator *)

(** X6.  Monte Carlo integration reads the world only through the next
    [intervals] outputs of the generator: two calls on the same request that
    are dealt the same numbers return the same double, whatever else differs
    between the two worlds. *)
Theorem monte_carlo_reproducible (RAND_MAX : Z) (p : IntegrationParams)
    (fuel : nat) (w1 w2 : World) :
  num_intervals p <= LLONG_MAX ->
  (Z.to_nat (num_intervals p) < fuel)%nat ->
  rand_draws w1 (Z.to_nat (num_intervals p)) =
  rand_draws w2 (Z.to_nat (num_intervals p)) ->
  same_result (monte_carlo_integration RAND_MAX fuel (Some p) w1)
              (monte_carlo_integration RAND_MAX fuel (Some p) w2).
Proof.
  intros Hmax Hfuel Hdraws.
  destruct (is_invalid (Some p)) eqn:Hinv.
  { rewrite !(rejected_returns_nan RAND_MAX) by (simpl; tauto || assumption).
    reflexivity. }
  destruct p as [[f|] a b n]; simpl in *; [|discriminate].
  apply orb_false_iff in Hinv. destruct Hinv as [Hn Hab].
  apply Z.leb_gt in Hn.
  change (Some (mkParams (Some f) a b n)) with (request f a b n).
  rewrite !monte_carlo_valid by (assumption || lia).
  simpl. unfold monte_carlo_value, monte_carlo_samples. now rewrite Hdraws.
Qed.

Lemma monte_carlo_reproducible_witness :
  same_result
    (monte_carlo_integration 32767 4 (request f_quadratic 0 1 3) (rand_const 5))
    (monte_carlo_integration 32767 4 (request f_quadratic 0 1 3)
       {| rand_src := fun k => if (k <? 3)%nat then 5 else 9;
          rand_next := 0; evals := [1%float] |}).
Proof.
  apply monte_carlo_reproducible;
    [unfold LLONG_MAX; simpl; lia | simpl; lia | reflexivity].
Defined.

(** * The benchmark driver *)

(** ** The interval counts handed to the Simpson rules *)

Lemma rem3_mod (n : Z) : 0 <= n -> Z.rem n 3 = n mod 3.
Proof. intros Hn. apply Z.rem_mod_nonneg; lia. Qed.

Lemma adjust_intervals_divisible (n : Z) :
  0 < n < LLONG_MAX - 2 ->
  (Z.even (adjust_intervals "5. Simpson's 1/3 Rule" n) = true /\
   n <= adjust_intervals "5. Simpson's 1/3 Rule" n <= n + 1) /\
  (adjust_intervals "6. Simpson's 3/8 Rule" n mod 3 = 0 /\
   n <= adjust_intervals "6. Simpson's 3/8 Rule" n <= n + 2) /\
  (forall method,
     method <> "5. Simpson's 1/3 Rule"%string ->
     method <> "6. Simpson's 3/8 Rule"%string ->
     adjust_intervals method n = n).
Proof.
  intros Hn. unfold LLONG_MAX in Hn. split; [|split].
  - unfold adjust_intervals.
    change ("5. Simpson's 1/3 Rule" =? "5. Simpson's 1/3 Rule")%string with true.
    change ("5. Simpson's 1/3 Rule" =? "6. Simpson's 3/8 Rule")%string with false.
    cbn [andb]. rewrite Z.rem_mod_nonneg by lia.
    destruct (Z.eqb_spec (n mod 2) 0) as [He | He]; cbn [negb].
    + split; [|lia]. apply Z.even_spec. exists (n / 2).
      pose proof (Z.div_mod n 2 ltac:(lia)). lia.
    + rewrite ll_wrap_id by (unfold ll_range, LLONG_MIN, LLONG_MAX; lia).
      split; [|lia]. apply Z.even_spec. exists (n / 2 + 1).
      pose proof (Z.div_mod n 2 ltac:(lia)).
      pose proof (Z.mod_pos_bound n 2 ltac:(lia)). lia.
  - unfold adjust_intervals.
    change ("6. Simpson's 3/8 Rule" =? "5. Simpson's 1/3 Rule")%string with false.
    change ("6. Simpson's 3/8 Rule" =? "6. Simpson's 3/8 Rule")%string with true.
    cbn [andb]. rewrite rem3_mod by lia.
    pose proof (Z.mod_pos_bound n 3 ltac:(lia)) as Hb.
    destruct (Z.eqb_spec (n mod 3) 0) as [He | He]; cbn [negb].
    + split; [assumption | lia].
    + rewrite ll_wrap_id by (unfold ll_range, LLONG_MIN, LLONG_MAX; lia).
      split; [|lia].
      replace (n + (3 - n mod 3)) with (n mod 3 + (n / 3 + 1) * 3 - n mod 3)
        by (pose proof (Z.div_mod n 3 ltac:(lia)); lia).
      replace (n mod 3 + (n / 3 + 1) * 3 - n mod 3) with ((n / 3 + 1) * 3) by lia.
      apply Z.mod_mul. lia.
  - intros method H13 H38. unfold adjust_intervals.
    apply String.eqb_neq in H13, H38. rewrite H13, H38. reflexivity.
Qed.

(** X7.  [main] hands Simpson's 1/3 rule the least even count that is not
    below the table's, Simpson's 3/8 rule the least multiple of 3 that is not
    below it, and every other method the table's count itself. *)
Theorem adjust_intervals_least_divisible (n : Z) :
  0 < n < LLONG_MAX - 2 ->
  (Z.even (adjust_intervals "5. Simpson's 1/3 Rule" n) = true /\
   n <= adjust_intervals "5. Simpson's 1/3 Rule" n <= n + 1) /\
  (adjust_intervals "6. Simpson's 3/8 Rule" n mod 3 = 0 /\
   n <= adjust_intervals "6. Simpson's 3/8 Rule" n <= n + 2) /\
  (forall method,
     method <> "5. Simpson's 1/3 Rule"%string ->
     method <> "6. Simpson's 3/8 Rule"%string ->
     adjust_intervals method n = n).
Proof. apply adjust_intervals_divisible. Qed.

Lemma adjust_intervals_least_divisible_witness :
  (Z.even (adjust_intervals "5. Simpson's 1/3 Rule" 100) = true /\
   100 <= adjust_intervals "5. Simpson's 1/3 Rule" 100 <= 100 + 1) /\
  (adjust_intervals "6. Simpson's 3/8 Rule" 100 mod 3 = 0 /\
   100 <= adjust_intervals "6. Simpson's 3/8 Rule" 100 <= 100 + 2) /\
  (forall method,
     method <> "5. Simpson's 1/3 Rule"%string ->
     method <> "6. Simpson's 3/8 Rule"%string ->
     adjust_intervals method 100 = 100).
Proof.
  apply adjust_intervals_least_divisible. unfold LLONG_MAX. lia.
Defined.

(** X8.  On a problem whose bounds pass the shared check, the count [main]
    hands to a Simpson rule passes that rule's divisibility test: the rule
    calls the function and returns the computed value, so a NaN in its row
    can only come out of the arithmetic. *)
Theorem driver_counts_pass_simpson_gates (f : MathFunction) (a b : float)
    (n : Z) (fuel : nat) (w : World) :
  0 < n < LLONG_MAX - 2 -> (b <=? a)%float = false ->
  (Z.to_nat (n + 2) < fuel)%nat ->
  simpsons_1_3_rule fuel
    (request f a b (adjust_intervals "5. Simpson's 1/3 Rule" n)) w =
  Done (simpson_1_3_value f a b (adjust_intervals "5. Simpson's 1/3 Rule" n))
       (log_evals
          (simpson_1_3_points a b (adjust_intervals "5. Simpson's 1/3 Rule" n))
          w) /\
  simpsons_3_8_rule fuel
    (request f a b (adjust_intervals "6. Simpson's 3/8 Rule" n)) w =
  Done (simpson_3_8_value f a b (adjust_intervals "6. Simpson's 3/8 Rule" n))
       (log_evals
          (simpson_3_8_points a b (adjust_intervals "6. Simpson's 3/8 Rule" n))
          w).
Proof.
  intros Hn Hab Hfuel.
  destruct (adjust_intervals_divisible n Hn)
    as ((Heven & H13) & (Hmod & H38) & _).
  unfold LLONG_MAX in *. split.
  - apply simpsons_1_3_valid; try assumption; try (unfold LLONG_MAX; lia).
    apply rem2_even; [lia | assumption].
  - apply simpsons_3_8_valid; try assumption; try (unfold LLONG_MAX; lia).
    rewrite rem3_mod by lia. assumption.
Qed.

Lemma driver_counts_pass_simpson_gates_witness :
  simpsons_1_3_rule 103
    (request f_quadratic 0 1 (adjust_intervals "5. Simpson's 1/3 Rule" 100))
    (rand_const 0) =
  Done (simpson_1_3_value f_quadratic 0 1
          (adjust_intervals "5. Simpson's 1/3 Rule" 100))
       (log_evals
          (simpson_1_3_points 0 1
             (adjust_intervals "5. Simpson's 1/3 Rule" 100))
          (rand_const 0)) /\
  simpsons_3_8_rule 103
    (request f_quadratic 0 1 (adjust_intervals "6. Simpson's 3/8 Rule" 100))
    (rand_const 0) =
  Done (simpson_3_8_value f_quadratic 0 1
          (adjust_intervals "6. Simpson's 3/8 Rule" 100))
       (log_evals
          (simpson_3_8_points 0 1
             (adjust_intervals "6. Simpson's 3/8 Rule" 100))
          (rand_const 0)).
Proof.
  apply driver_counts_pass_simpson_gates;
    [unfold LLONG_MAX; lia | reflexivity | simpl; lia].
Defined.

(** ** The result array *)

Lemma int_wrap_id (z : Z) : INT_MIN <= z <= INT_MAX -> int_wrap z = z.
Proof.
  unfold int_wrap, INT_MIN, INT_MAX. intros H.
  rewrite Z.mod_small by lia. lia.
Qed.

Lemma slots_length (total : nat) (rs : list IntegrationResult.t) :
  (length rs <= total)%nat -> length (slots total rs) = total.
Proof.
  intros H. unfold slots. rewrite length_app, length_map, repeat_length. lia.
Qed.

Lemma list_update_first_free (r : IntegrationResult.t)
    (rs : list IntegrationResult.t) (k : nat) :
  list_update (length rs) (Some r) (map Some rs ++ repeat None (S k)) =
  map Some (rs ++ [r]) ++ repeat None k.
Proof.
  induction rs as [|x rs IH]; [reflexivity|].
  cbn [length map app list_update]. now rewrite IH.
Qed.

Lemma store_next (total : nat) (rs : list IntegrationResult.t)
    (r : IntegrationResult.t) (s : Process) :
  (length rs < total)%nat ->
  store (slots total rs) (Z.of_nat (length rs)) r s =
  PDone (slots total (rs ++ [r])) s.
Proof.
  intros Hlt. unfold store. rewrite slots_length by lia.
  destruct (Z.leb_spec 0 (Z.of_nat (length rs))); [|lia].
  destruct (Z.ltb_spec (Z.of_nat (length rs)) (Z.of_nat total)); [|lia].
  cbn [andb]. unfold pret. f_equal. rewrite Nat2Z.id. unfold slots.
  replace (total - length rs)%nat with (S (total - length (rs ++ [r])))
    by (rewrite length_app; simpl; lia).
  apply list_update_first_free.
Qed.

Lemma load_stored (pre post : list IntegrationResult.t)
    (r : IntegrationResult.t) (s : Process) :
  load (map Some (pre ++ r :: post)) (Z.of_nat (length pre)) s = PDone r s.
Proof.
  unfold load. destruct (Z.leb_spec 0 (Z.of_nat (length pre))); [|lia].
  rewrite Nat2Z.id, map_app, nth_error_app2 by (rewrite length_map; lia).
  rewrite length_map, Nat.sub_diag. reflexivity.
Qed.

(** ** One case, then the loops *)

Lemma emitted_refl (s : Process) : emitted [] s s.
Proof. unfold emitted. now rewrite app_nil_r. Qed.

Lemma emitted_trans (o1 o2 : list Output) (s1 s2 s3 : Process) :
  emitted o1 s1 s2 -> emitted o2 s2 s3 -> emitted (o1 ++ o2) s1 s3.
Proof.
  unfold emitted. intros (H1 & H2 & H3) (H4 & H5 & H6).
  rewrite H4, H1, app_assoc. repeat split; congruence.
Qed.

Lemma benchmark_case_step (libc : Libc.t) (fuel : nat)
    (problem : IntegrationProblem.t) (count : Z) (method : Method.t)
    (total : nat) (rs : list IntegrationResult.t) (s : Process) :
  (forall w, exists r w',
     Method.func_ptr method fuel (Some (case_params (problem, count, method))) w
     = Done r w') ->
  (length rs < total)%nat -> Z.of_nat total <= INT_MAX ->
  exists r s',
    benchmark_case libc fuel problem count method
      (slots total rs, Z.of_nat (length rs)) s =
    PDone (slots total (rs ++ [r]), Z.of_nat (length (rs ++ [r]))) s' /\
    emitted [] s s' /\
    row_of fuel (problem, count, method) r.
Proof.
  intros Hret Hlt Hmax.
  destruct (Hret (world s)) as (x & w' & Hx).
  unfold benchmark_case. unfold pbind at 1. unfold clock at 1.
  unfold pbind at 1. unfold lift at 1. cbn [world].
  unfold case_params in Hx. rewrite Hx.
  unfold pbind at 1. unfold clock at 1. cbn [clock_src clock_next].
  unfold pbind at 1. rewrite store_next by assumption.
  unfold pret. rewrite int_wrap_id by (unfold INT_MIN; lia).
  eexists. eexists. split; [|split].
  - f_equal. f_equal. rewrite length_app. simpl. lia.
  - unfold emitted; cbn [output live_blocks open_files].
    now rewrite app_nil_r.
  - unfold row_of; cbn. repeat split. exists (world s), w'. exact Hx.
Qed.

Lemma for_each_blocks {A : Type} (fuel total : nat)
    (body : A -> list (option IntegrationResult.t) * Z ->
            P (list (option IntegrationResult.t) * Z))
    (cs : A -> list Case) (outs : A -> list Output) (l : list A) :
  (forall x, In x l -> forall rs s,
     (length rs + length (cs x) <= total)%nat ->
     exists rs' s',
       body x (slots total rs, Z.of_nat (length rs)) s =
       PDone (slots total (rs ++ rs'), Z.of_nat (length (rs ++ rs'))) s' /\
       emitted (outs x) s s' /\
       Forall2 (row_of fuel) (cs x) rs') ->
  forall rs s,
    (length rs + length (flat_map cs l) <= total)%nat ->
    exists rs' s',
      for_each l body (slots total rs, Z.of_nat (length rs)) s =
      PDone (slots total (rs ++ rs'), Z.of_nat (length (rs ++ rs'))) s' /\
      emitted (flat_map outs l) s s' /\
      Forall2 (row_of fuel) (flat_map cs l) rs'.
Proof.
  induction l as [|x l IH]; intros Hbody rs s Hlen.
  - exists [], s. rewrite app_nil_r. simpl.
    split; [reflexivity | split; [apply emitted_refl | constructor]].
  - simpl in Hlen. rewrite length_app in Hlen.
    destruct (Hbody x (or_introl eq_refl) rs s) as (rs1 & s1 & Hrun1 & Hout1 & Hrows1);
      [lia|].
    pose proof (Forall2_length Hrows1) as Hlen1.
    destruct (IH (fun y Hy => Hbody y (or_intror Hy)) (rs ++ rs1) s1)
      as (rs2 & s2 & Hrun2 & Hout2 & Hrows2);
      [rewrite length_app; lia|].
    exists (rs1 ++ rs2), s2. simpl. unfold pbind. rewrite Hrun1, Hrun2.
    rewrite <- app_assoc. split; [reflexivity | split].
    + now apply emitted_trans with s1.
    + now apply Forall2_app.
Qed.

Lemma flat_map_single {A B : Type} (g : A -> B) (l : list A) :
  flat_map (fun x => [g x]) l = map g l.
Proof. induction l as [|x l IH]; simpl; [reflexivity | now rewrite IH]. Qed.

Lemma flat_map_nothing {A B : Type} (l : list A) :
  flat_map (fun _ : A => @nil B) l = [].
Proof. induction l as [|x l IH]; simpl; [reflexivity | exact IH]. Qed.

Lemma cases_In (libc : Libc.t) (problem : IntegrationProblem.t) (count : Z)
    (method : Method.t) :
  In problem (problems libc) -> In count interval_counts ->
  In method (methods libc) ->
  In (problem, count, method) (cases libc).
Proof.
  intros Hp Hc Hm. unfold cases.
  apply in_flat_map. exists problem. split; [assumption|].
  apply in_flat_map. exists count. split; [assumption|].
  apply in_map_iff. exists method. split; [reflexivity | assumption].
Qed.

(** The three nested loops store one record per case, in the order of the
    cases, provided the array has room for them and every call returns. *)
Lemma run_benchmarks_fills (libc : Libc.t) (fuel total : nat)
    (rs : list IntegrationResult.t) (s : Process) :
  (forall problem count method w,
     In (problem, count, method) (cases libc) ->
     exists r w',
       Method.func_ptr method fuel
         (Some (case_params (problem, count, method))) w = Done r w') ->
  (length rs + length (cases libc) <= total)%nat ->
  Z.of_nat total <= INT_MAX ->
  exists rs' s',
    run_benchmarks libc fuel (slots total rs, Z.of_nat (length rs)) s =
    PDone (slots total (rs ++ rs'), Z.of_nat (length (rs ++ rs'))) s' /\
    emitted (map completed_message (problems libc)) s s' /\
    Forall2 (row_of fuel) (cases libc) rs'.
Proof.
  intros Hret Hlen Hmax. unfold run_benchmarks.
  rewrite <- (flat_map_single completed_message).
  apply for_each_blocks
    with (cs := fun problem =>
                  flat_map (fun count =>
                              map (fun method => (problem, count, method))
                                  (methods libc))
                           interval_counts);
    [|exact Hlen].
  intros problem Hp rs0 s0 Hlen0.
  destruct (for_each_blocks fuel total
              (fun count st =>
                 for_each (methods libc)
                   (fun method st =>
                      benchmark_case libc fuel problem count method st) st)
              (fun count =>
                 map (fun method => (problem, count, method)) (methods libc))
              (fun _ => []) interval_counts) with (rs := rs0) (s := s0)
    as (rs1 & s1 & Hrun & Hout & Hrows); [|exact Hlen0|].
  - intros count Hc rs2 s2 Hlen2.
    rewrite <- (flat_map_single (fun method => (problem, count, method))).
    rewrite <- (flat_map_single (fun method => (problem, count, method))) in Hlen2.
    rewrite <- (flat_map_nothing (B := Output) (methods libc)).
    apply for_each_blocks; [|exact Hlen2].
    intros method Hm rs3 s3 Hlen3. simpl in Hlen3.
    destruct (benchmark_case_step libc fuel problem count method total rs3 s3)
      as (r & s4 & Hcase & Hout4 & Hrow); [|lia|assumption|].
    + intros w. apply Hret. now apply cases_In.
    + exists [r], s4. split; [exact Hcase|]. split; [exact Hout4|].
      constructor; [exact Hrow | constructor].
  - exists rs1. eexists. unfold pbind. rewrite Hrun.
    unfold emit, pret. split; [reflexivity|]. split; [|exact Hrows].
    rewrite flat_map_nothing in Hout. destruct Hout as (Ho & Hb & Hf).
    unfold emitted, completed_message; cbn [output live_blocks open_files].
    rewrite Ho, app_nil_r. repeat split; assumption.
Qed.

Lemma csv_row_eta (r : IntegrationResult.t) :
  mkOutput (stream (csv_row r)) (format (csv_row r)) (args (csv_row r)) =
  csv_row r.
Proof. now destruct (csv_row r). Qed.

(** The export loop prints the row of every record, in the order of the
    array. *)
Lemma export_rows_from (rs : list IntegrationResult.t) :
  forall (pre : list IntegrationResult.t) (s : Process),
  exists s',
    for_each (zrange (Z.of_nat (length pre)) 1 (length rs))
      (fun i _ =>
         r <-- load (map Some (pre ++ rs)) i ;;
         emit (stream (csv_row r)) (format (csv_row r)) (args (csv_row r)))
      tt s = PDone tt s' /\
    emitted (map csv_row rs) s s' /\
    world s' = world s /\ clock_next s' = clock_next s.
Proof.
  induction rs as [|r rs IH]; intros pre s.
  - exists s. simpl. split; [reflexivity|].
    split; [apply emitted_refl | split; reflexivity].
  - cbn [length zrange for_each]. unfold pbind at 1. unfold pbind at 1.
    rewrite load_stored. unfold emit at 1. rewrite csv_row_eta.
    destruct (IH (pre ++ [r])
                {| world := world s; clock_src := clock_src s;
                   clock_next := clock_next s;
                   output := output s ++ [csv_row r];
                   live_blocks := live_blocks s;
                   open_files := open_files s |})
      as (s' & Hrun & (Ho & Hb & Hf) & Hw & Hc).
    rewrite length_app, <- app_assoc in Hrun. simpl in Hrun.
    replace (Z.of_nat (length pre) + 1) with (Z.of_nat (length pre + 1)) by lia.
    exists s'. split; [exact Hrun|].
    cbn [output live_blocks open_files world clock_next] in *.
    unfold emitted. rewrite Ho, <- app_assoc. repeat split; assumption.
Qed.

(** ** [main] *)

Lemma pbind_done {A B : Type} (m : P A) (k : A -> P B) (s s1 : Process)
    (a : A) :
  m s = PDone a s1 -> pbind m k s = k a s1.
Proof. intros H. unfold pbind. now rewrite H. Qed.

Lemma adjust_intervals_range (method : string) (n : Z) :
  0 < n < LLONG_MAX - 2 -> n <= adjust_intervals method n <= n + 2.
Proof.
  intros Hn.
  destruct (adjust_intervals_divisible n Hn) as ((_ & H13) & (_ & H38) & Hother).
  destruct (String.eqb_spec method "5. Simpson's 1/3 Rule") as [-> | N13];
    [lia|].
  destruct (String.eqb_spec method "6. Simpson's 3/8 Rule") as [-> | N38];
    [lia|].
  rewrite Hother by assumption. lia.
Qed.

Lemma interval_counts_range (count : Z) :
  In count interval_counts -> 0 < count <= 1000000.
Proof.
  unfold interval_counts. simpl.
  intros [<- | [<- | [<- | [<- | [<- | []]]]]]; lia.
Qed.

Lemma methods_are_rules (libc : Libc.t) (method : Method.t) :
  In method (methods libc) ->
  In (Method.func_ptr method) (all_rules (Libc.RAND_MAX libc)).
Proof.
  unfold methods. simpl.
  intros [<- | [<- | [<- | [<- | [<- | [<- | [<- | []]]]]]]]; simpl; tauto.
Qed.

Lemma cases_inv (libc : Libc.t) (problem : IntegrationProblem.t) (count : Z)
    (method : Method.t) :
  In (problem, count, method) (cases libc) ->
  In count interval_counts /\ In method (methods libc).
Proof.
  unfold cases. intros H.
  apply in_flat_map in H. destruct H as (p' & _ & H).
  apply in_flat_map in H. destruct H as (c' & Hc & H).
  apply in_map_iff in H. destruct H as (m' & [= _ <- <-] & Hm).
  now split.
Qed.

Lemma main_cases_return (libc : Libc.t) (fuel : nat) :
  1000002 < Z.of_nat fuel ->
  forall problem count method w,
    In (problem, count, method) (cases libc) ->
    exists r w',
      Method.func_ptr method fuel
        (Some (case_params (problem, count, method))) w = Done r w'.
Proof.
  intros Hfuel problem count method w Hin.
  destruct (cases_inv libc problem count method Hin) as [Hc Hm].
  apply interval_counts_range in Hc.
  pose proof (adjust_intervals_range (Method.name method) count
                ltac:(unfold LLONG_MAX; lia)) as Hadj.
  apply (rule_returns (Libc.RAND_MAX libc)).
  - now apply methods_are_rules.
  - cbn [case_params num_intervals]. unfold LLONG_MAX. lia.
  - cbn [case_params num_intervals]. lia.
Qed.

(** The first phase of [main], up to the opening of the CSV file. *)
Lemma main_benchmark_phase (libc : Libc.t) (fuel : nat) (s : Process) :
  1000002 < Z.of_nat fuel ->
  exists rs s',
    run_benchmarks libc fuel (repeat None (Z.to_nat 105), 0) s =
    PDone (map Some rs, 105) s' /\
    emitted (map completed_message (problems libc)) s s' /\
    Forall2 (row_of fuel) (cases libc) rs.
Proof.
  intros Hfuel.
  destruct (run_benchmarks_fills libc fuel 105 [] s)
    as (rs & s' & Hrun & Hout & Hrows).
  - intros problem count method w. now apply main_cases_return.
  - apply Nat.eq_le_incl. reflexivity.
  - unfold INT_MAX. lia.
  - exists rs, s'. split; [|split; assumption].
    pose proof (Forall2_length Hrows) as Hlen.
    change (length (cases libc)) with 105%nat in Hlen.
    change (slots 105 [], Z.of_nat (length (@nil IntegrationResult.t)))
      with (repeat (@None IntegrationResult.t) (Z.to_nat 105), 0) in Hrun.
    rewrite Hrun. simpl app. unfold slots.
    rewrite <- Hlen, Nat.sub_diag. simpl repeat. rewrite app_nil_r.
    reflexivity.
Qed.

(** X9.  When the array is allocated, the file opens and the step budget
    covers the largest interval count, [main] exits with status 0 having
    stored, without ever leaving the bounds of the result array, one record
    for each of the 105 cases in the order of its three loops (problem,
    count, method); each record carries the adjusted interval count, a
    double its method returned on that request and its distance to the exact
    value.  It has printed the progress messages, the CSV header and one row
    per record in array order, and it holds no more heap blocks or open
    files than when it started. *)
Theorem main_exports_every_case (libc : Libc.t) (now : Z) (fuel : nat)
    (s : Process) :
  1000002 < Z.of_nat fuel ->
  exists rs s',
    main libc now true true fuel s = PDone 0 s' /\
    Forall2 (row_of fuel) (cases libc) rs /\
    length rs = 105%nat /\
    output s' = output s ++ success_output libc rs /\
    live_blocks s' = live_blocks s /\
    open_files s' = open_files s.
Proof.
  intros Hfuel. unfold main. cbv zeta.
  change (int_wrap (int_wrap (Z.of_nat (length (problems libc))
                              * Z.of_nat (length (methods libc)))
                    * Z.of_nat (length interval_counts))) with 105.
  erewrite pbind_done by reflexivity.
  erewrite pbind_done by reflexivity.
  erewrite pbind_done by reflexivity.
  cbv beta iota.
  cbn [set_resources world clock_src clock_next output live_blocks open_files].
  match goal with
  | |- context [pbind (run_benchmarks _ _ _) _ ?s0] =>
      destruct (main_benchmark_phase libc fuel s0 Hfuel)
        as (rs & s1 & Hrun & (Ho1 & Hb1 & Hf1) & Hrows)
  end.
  pose proof (Forall2_length Hrows) as Hlen.
  change (length (cases libc)) with 105%nat in Hlen.
  erewrite pbind_done by exact Hrun.
  erewrite pbind_done by reflexivity.
  erewrite pbind_done by reflexivity.
  cbn [negb fst].
  erewrite pbind_done by reflexivity.
  cbn [set_resources world clock_src clock_next output live_blocks open_files].
  match goal with
  | |- context [pbind (export_rows _ _) _ ?s2] =>
      destruct (export_rows_from rs [] s2)
        as (s3 & Hexp & (Ho3 & Hb3 & Hf3) & _)
  end.
  unfold export_rows. change (Z.to_nat 105) with 105%nat.
  cbn [length app Z.of_nat] in Hexp. rewrite <- Hlen in Hexp.
  erewrite pbind_done by exact Hexp.
  erewrite pbind_done by reflexivity.
  erewrite pbind_done by reflexivity.
  erewrite pbind_done by reflexivity.
  erewrite pbind_done by reflexivity.
  exists rs. eexists. split; [reflexivity|].
  split; [exact Hrows|]. split; [now symmetry|].
  cbn [output live_blocks open_files set_resources world clock_src
         clock_next] in *.
  rewrite Hb3, Hf3, Ho3, Hb1, Hf1, Ho1. unfold success_output.
  repeat rewrite <- app_assoc. repeat split; cbn [Nat.pred]; reflexivity.
Qed.

Lemma main_exports_every_case_witness :
  exists rs s',
    main sample_libc 1700000000 true true (Z.to_nat 1000003) boot = PDone 0 s' /\
    Forall2 (row_of (Z.to_nat 1000003)) (cases sample_libc) rs /\
    length rs = 105%nat /\
    output s' = output boot ++ success_output sample_libc rs /\
    live_blocks s' = live_blocks boot /\
    open_files s' = open_files boot.
Proof. apply main_exports_every_case. lia. Defined.

(** X10.  When the result array cannot be allocated, [main] exits with
    status 1 after the announcement and the error message: it has called no
    integrand, read no clock, written nothing to the CSV file, and holds no
    block and no file it did not hold before. *)
Theorem main_without_memory (libc : Libc.t) (now : Z) (fopen_ok : bool)
    (fuel : nat) (s : Process) :
  exists s',
    main libc now false fopen_ok fuel s = PDone 1 s' /\
    output s' = output s ++ no_memory_output /\
    evals (world s') = evals (world s) /\
    clock_next s' = clock_next s /\
    live_blocks s' = live_blocks s /\
    open_files s' = open_files s.
Proof.
  unfold main. cbv zeta.
  change (int_wrap (int_wrap (Z.of_nat (length (problems libc))
                              * Z.of_nat (length (methods libc)))
                    * Z.of_nat (length interval_counts))) with 105.
  erewrite pbind_done by reflexivity.
  erewrite pbind_done by reflexivity.
  erewrite pbind_done by reflexivity.
  cbv beta iota.
  erewrite pbind_done by reflexivity.
  eexists. split; [reflexivity|].
  cbn [output world evals clock_next live_blocks open_files].
  rewrite <- app_assoc. repeat split.
Qed.

(** X11.  When the result array is allocated but the CSV file cannot be
    opened, [main] exits with status 1 after running all the cases: it has
    printed the progress messages and the error message, nothing for the CSV
    file, and it has freed the result array. *)
Theorem main_without_file (libc : Libc.t) (now : Z) (fuel : nat)
    (s : Process) :
  1000002 < Z.of_nat fuel ->
  exists s',
    main libc now true false fuel s = PDone 1 s' /\
    output s' = output s ++ no_file_output libc /\
    Forall (fun o => stream o <> CsvFile) (no_file_output libc) /\
    live_blocks s' = live_blocks s /\
    open_files s' = open_files s.
Proof.
  intros Hfuel. unfold main. cbv zeta.
  change (int_wrap (int_wrap (Z.of_nat (length (problems libc))
                              * Z.of_nat (length (methods libc)))
                    * Z.of_nat (length interval_counts))) with 105.
  erewrite pbind_done by reflexivity.
  erewrite pbind_done by reflexivity.
  erewrite pbind_done by reflexivity.
  cbv beta iota.
  cbn [set_resources world clock_src clock_next output live_blocks open_files].
  match goal with
  | |- context [pbind (run_benchmarks _ _ _) _ ?s0] =>
      destruct (main_benchmark_phase libc fuel s0 Hfuel)
        as (rs & s1 & Hrun & (Ho1 & Hb1 & Hf1) & Hrows)
  end.
  erewrite pbind_done by exact Hrun.
  erewrite pbind_done by reflexivity.
  erewrite pbind_done by reflexivity.
  cbn [negb].
  erewrite pbind_done by reflexivity.
  erewrite pbind_done by reflexivity.
  eexists. split; [reflexivity|].
  cbn [output live_blocks open_files set_resources world clock_src
         clock_next] in *.
  rewrite Hb1, Hf1, Ho1. unfold no_file_output.
  repeat rewrite <- app_assoc. split; [reflexivity|]. split.
  - repeat constructor; discriminate.
  - split; reflexivity.
Qed.

Lemma main_without_file_witness :
  exists s',
    main sample_libc 1700000000 true false (Z.to_nat 1000003) boot = PDone 1 s' /\
    output s' = output boot ++ no_file_output sample_libc /\
    Forall (fun o => stream o <> CsvFile) (no_file_output sample_libc) /\
    live_blocks s' = live_blocks boot /\
    open_files s' = open_files boot.
Proof. apply main_without_file. lia. Defined.

(** ** The recorded error *)

Lemma abs_nan_or_nonneg (x : float) :
  is_nan (abs x) = true \/ (0 <=? abs x)%float = true.
Proof.
  unfold is_nan.
  rewrite FloatAxioms.eqb_spec, FloatAxioms.leb_spec, FloatAxioms.abs_spec.
  replace (Prim2SF 0) with (S754_zero false) by reflexivity.
  destruct (Prim2SF x) as [s|s| |s m e]; simpl; auto.
Qed.

Lemma nth_error_list_update {A : Type} (v : A) (l : list A) :
  forall k, (k < length l)%nat -> nth_error (list_update k v l) k = Some v.
Proof.
  induction l as [|x l IH]; intros k Hk; simpl in Hk; [lia|].
  destruct k as [|k]; simpl; [reflexivity | apply IH; lia].
Qed.

(** X12.  A case that completes has stored its record at
    [results[result_index]], an index inside the array, and moved the index
    on by one.  The recorded error is NaN or non-negative, and it is NaN
    whenever the recorded result is NaN: the [INVALID_N] that [main] writes
    in the error column of such a row hides no number. *)
Theorem benchmark_case_stores_record (libc : Libc.t) (fuel : nat)
    (problem : IntegrationProblem.t) (count : Z) (method : Method.t)
    (results results' : list (option IntegrationResult.t))
    (result_index result_index' : Z) (s s' : Process) :
  benchmark_case libc fuel problem count method (results, result_index) s =
  PDone (results', result_index') s' ->
  0 <= result_index < Z.of_nat (length results) /\
  result_index' = int_wrap (result_index + 1) /\
  exists r,
    nth_error results' (Z.to_nat result_index) = Some (Some r) /\
    IntegrationResult.num_intervals r =
      adjust_intervals (Method.name method) count /\
    (is_nan (IntegrationResult.absolute_error r) = true \/
     (0 <=? IntegrationResult.absolute_error r)%float = true) /\
    (is_nan (IntegrationResult.result r) = true ->
     is_nan (IntegrationResult.absolute_error r) = true).
Proof.
  unfold benchmark_case. unfold pbind at 1. unfold clock at 1.
  unfold pbind at 1. unfold lift at 1. cbn [world].
  destruct (Method.func_ptr method fuel _ (world s)) as [x w'| |];
    try discriminate.
  unfold pbind at 1. unfold clock at 1. cbn [clock_src clock_next].
  unfold pbind at 1. unfold store.
  destruct (Z.leb_spec 0 result_index); cbn [andb]; [|discriminate].
  destruct (Z.ltb_spec result_index (Z.of_nat (length results)));
    [|discriminate].
  unfold pret. intros [= <- <- _].
  split; [lia|]. split; [reflexivity|].
  eexists. split; [apply nth_error_list_update; lia|].
  cbn [IntegrationResult.num_intervals IntegrationResult.absolute_error
         IntegrationResult.result].
  split; [reflexivity|]. split; [apply abs_nan_or_nonneg|].
  intros Hnan. apply is_nan_eq in Hnan. subst x.
  now rewrite sub_nan_l.
Qed.

Lemma benchmark_case_stores_record_witness :
  0 <= 0 < Z.of_nat (length (repeat (@None IntegrationResult.t) 2)) /\
  1 = int_wrap (0 + 1) /\
  exists r,
    nth_error
      (fst (fst (match benchmark_case sample_libc 5
                         (IntegrationProblem.mk (Some f_quadratic) "x^2" 1 0
                            F_QUADRATIC_EXACT)
                         4 (Method.mk trapezoidal_rule "4. Trapezoidal Rule")
                         (repeat None 2, 0) boot with
                 | PDone st s' => (st, s')
                 | _ => (([], 0), boot)
                 end)))
      (Z.to_nat 0) = Some (Some r) /\
    IntegrationResult.num_intervals r =
      adjust_intervals "4. Trapezoidal Rule" 4 /\
    (is_nan (IntegrationResult.absolute_error r) = true \/
     (0 <=? IntegrationResult.absolute_error r)%float = true) /\
    (is_nan (IntegrationResult.result r) = true ->
     is_nan (IntegrationResult.absolute_error r) = true).
Proof.
  apply (benchmark_case_stores_record sample_libc 5
           (IntegrationProblem.mk (Some f_quadratic) "x^2" 1 0
              F_QUADRATIC_EXACT)
           4 (Method.mk trapezoidal_rule "4. Trapezoidal Rule")
           (repeat None 2) _ 0 1 boot
           (snd (match benchmark_case sample_libc 5
                         (IntegrationProblem.mk (Some f_quadratic) "x^2" 1 0
                            F_QUADRATIC_EXACT)
                         4 (Method.mk trapezoidal_rule "4. Trapezoidal Rule")
                         (repeat None 2, 0) boot with
                 | PDone st s' => (st, s')
                 | _ => (([], 0), boot)
                 end))).
  vm_compute. reflexivity.
Defined.
